(** * comment2var: annotation index, debounced re-indexing and completion

    A shallow embedding of [src/extension.ts].  JavaScript strings are
    sequences of UTF-16 code units; regular expressions are run by a small
    backtracking matcher that follows the ECMAScript semantics for the
    constructs the extension uses (no flags besides [g] on the splitter). *)

From Stdlib Require Import List NArith ZArith Arith Lia Bool String Ascii.
Import ListNotations.
Local Open Scope list_scope.

Set Implicit Arguments.

(** ** JavaScript strings *)

Module Js.

Definition char := N.
Definition str := list char.

Definition of_string (s : string) : str :=
  map N_of_ascii (list_ascii_of_string s).

Definition str_eq_dec : forall a b : str, {a = b} + {a <> b} :=
  list_eq_dec N.eq_dec.

Definition str_eqb (a b : str) : bool :=
  if str_eq_dec a b then true else false.

(** [\s]: WhiteSpace and LineTerminator code units. *)
Definition isSpace (c : char) : bool :=
  ((9 <=? c) && (c <=? 13) || (c =? 32) || (c =? 160) || (c =? 5760)
   || (8192 <=? c) && (c <=? 8202) || (c =? 8232) || (c =? 8233)
   || (c =? 8239) || (c =? 8287) || (c =? 12288) || (c =? 65279))%N.

(** LineTerminator: LF, CR, LS, PS. *)
Definition isLineTerminator (c : char) : bool :=
  ((c =? 10) || (c =? 13) || (c =? 8232) || (c =? 8233))%N.

(** [.] without the [s] flag. *)
Definition isDot (c : char) : bool := negb (isLineTerminator c).

(** [\w] = [[A-Za-z0-9_]]. *)
Definition isWord (c : char) : bool :=
  ((48 <=? c) && (c <=? 57) || (65 <=? c) && (c <=? 90) || (c =? 95)
   || (97 <=? c) && (c <=? 122))%N.

Definition isChar (x : char) (c : char) : bool := (c =? x)%N.

Definition c_slash : char := 47%N.
Definition c_at : char := 64%N.
Definition c_eq : char := 61%N.
Definition c_colon : char := 58%N.
Definition c_lf : char := 10%N.
Definition c_cr : char := 13%N.

(** [[^\s@]] *)
Definition isLabelChar (c : char) : bool := negb (isSpace c || isChar c_at c).

Fixpoint dropWhile (p : char -> bool) (s : str) : str :=
  match s with
  | x :: s' => if p x then dropWhile p s' else s
  | [] => []
  end.

Definition trimStart (s : str) : str := dropWhile isSpace s.
Definition trimEnd (s : str) : str := rev (dropWhile isSpace (rev s)).

(** [String.prototype.trim] *)
Definition trim (s : str) : str := trimEnd (trimStart s).

(** [String.prototype.startsWith] *)
Fixpoint startsWith (s p : str) {struct p} : bool :=
  match p with
  | [] => true
  | y :: p' =>
      match s with
      | x :: s' => (x =? y)%N && startsWith s' p'
      | [] => false
      end
  end.

(** [String.prototype.includes] *)
Fixpoint includes (s p : str) : bool :=
  startsWith s p ||
  match s with
  | [] => false
  | _ :: s' => includes s' p
  end.

(** [String.prototype.substr(0, n)] *)
Definition substr0 (s : str) (n : nat) : str := firstn n s.

Definition cons_head (c : char) (ls : list str) : list str :=
  match ls with
  | l :: r => (c :: l) :: r
  | [] => [[c]]
  end.

(** [text.split(/\r?\n/g)]: the separator is tried at every position; it
    consumes [\r\n] when both are there, a lone [\n] otherwise, and a [\r]
    that no [\n] follows stays in its line. *)
Fixpoint split_lines (s : str) : list str :=
  match s with
  | [] => [[]]
  | c :: s' =>
      if (c =? c_lf)%N then [] :: split_lines s'
      else
        match s' with
        | c2 :: s'' =>
            if ((c =? c_cr) && (c2 =? c_lf))%N then [] :: split_lines s''
            else cons_head c (split_lines s')
        | [] => [[c]]
        end
  end.

End Js.

Import Js.

(** ** Regular expressions *)

Module Regex.

(** The fragment of ECMAScript patterns the extension uses.  Quantifiers
    only ever apply to a single character class there. *)
Inductive regex : Type :=
| Eps
| Chr (p : char -> bool)
| Star (p : char -> bool)
| Plus (p : char -> bool)
| Seq (r1 r2 : regex)
| Alt (r1 r2 : regex)
| Group (n : nat) (r : regex)
| Eos.

Definition caps := nat -> option str.
Definition nocaps : caps := fun _ => None.
Definition setcap (n : nat) (v : str) (c : caps) : caps :=
  fun i => if Nat.eqb i n then Some v else c i.

Definition cont := str -> caps -> option caps.

Definition orElse (a : option caps) (b : option caps) : option caps :=
  match a with
  | Some r => Some r
  | None => b
  end.

(** Greedy [p*]: take one more character first, give it back on failure. *)
Fixpoint star (p : char -> bool) (k : cont) (s : str) (c : caps) : option caps :=
  match s with
  | x :: s' => if p x then orElse (star p k s' c) (k s c) else k s c
  | [] => k s c
  end.

(** Backtracking matcher in continuation-passing style: [run r k s c]
    matches [r] at the front of [s] and hands the rest to [k]. *)
Fixpoint run (r : regex) (k : cont) (s : str) (c : caps) : option caps :=
  match r with
  | Eps => k s c
  | Chr p =>
      match s with
      | x :: s' => if p x then k s' c else None
      | [] => None
      end
  | Star p => star p k s c
  | Plus p =>
      match s with
      | x :: s' => if p x then star p k s' c else None
      | [] => None
      end
  | Seq r1 r2 => run r1 (run r2 k) s c
  | Alt r1 r2 => orElse (run r1 k s c) (run r2 k s c)
  | Group n r1 =>
      run r1 (fun s' c' =>
                k s' (setcap n (firstn (List.length s - List.length s') s) c')) s c
  | Eos =>
      match s with
      | [] => k s c
      | _ :: _ => None
      end
  end.

Definition accept : cont := fun _ c => Some c.

Definition exec_at (r : regex) (s : str) : option caps := run r accept s nocaps.

(** [String.prototype.match] with a non-global pattern: the leftmost start
    position at which the pattern matches, the end of the string included. *)
Fixpoint search (r : regex) (s : str) : option caps :=
  match exec_at r s with
  | Some c => Some c
  | None =>
      match s with
      | [] => None
      | _ :: s' => search r s'
      end
  end.

Fixpoint Lit (s : str) : regex :=
  match s with
  | [] => Eps
  | x :: s' => Seq (Chr (isChar x)) (Lit s')
  end.

End Regex.

Import Regex.

(** ** The annotation index: a JavaScript [Map<string, V>] *)

Module JsMap.

Section WithValues.
Variable V : Type.

(** Entries in insertion order; keys are unique when built with [set]. *)
Definition t := list (str * V).

Definition empty : t := [].

Fixpoint get (k : str) (m : t) : option V :=
  match m with
  | [] => None
  | (k', v) :: m' => if str_eqb k' k then Some v else get k m'
  end.

(** [Map.prototype.set]: an existing key keeps its place, a new one goes
    to the end. *)
Fixpoint set (k : str) (v : V) (m : t) : t :=
  match m with
  | [] => [(k, v)]
  | (k', v') :: m' => if str_eqb k' k then (k', v) :: m' else (k', v') :: set k v m'
  end.

End WithValues.

End JsMap.

Definition AnnotationIndex := JsMap.t str.

(** ** Scanner (parseDocument, lines 46-78) *)

(** [/\/\/\s*@{1}\s*(.+)/] *)
Definition annotationRegex : regex :=
  Seq (Chr (isChar c_slash)) (Seq (Chr (isChar c_slash))
    (Seq (Star isSpace) (Seq (Chr (isChar c_at))
      (Seq (Star isSpace) (Group 1 (Plus isDot)))))).

Definition kw_const : str := Eval cbv in of_string "const".
Definition kw_let : str := Eval cbv in of_string "let".
Definition kw_var : str := Eval cbv in of_string "var".

(** [/(?:const|let|var)\s+(\w+)\s*=|(\w+)\s*:/] *)
Definition variableRegex : regex :=
  Alt
    (Seq (Alt (Lit kw_const) (Alt (Lit kw_let) (Lit kw_var)))
      (Seq (Plus isSpace) (Seq (Group 1 (Plus isWord))
        (Seq (Star isSpace) (Chr (isChar c_eq))))))
    (Seq (Group 2 (Plus isWord)) (Seq (Star isSpace) (Chr (isChar c_colon)))).

(** [line.match(...)] followed by [annotationMatch[1].trim()]. *)
Definition annotationMatch (line : str) : option str :=
  match search annotationRegex line with
  | Some c =>
      match c 1 with
      | Some g => Some (trim g)
      | None => None
      end
  | None => None
  end.

(** [a || b] on capture groups: an undefined or empty group is falsy. *)
Definition jsOr (a b : option str) : option str :=
  match a with
  | Some (_ :: _) => a
  | _ => b
  end.

(** [nextLine.match(...)] followed by [variableMatch[1] || variableMatch[2]]. *)
Definition variableMatch (line : str) : option str :=
  match search variableRegex line with
  | Some c => jsOr (c 1) (c 2)
  | None => None
  end.

Definition isBlank (line : str) : bool :=
  match trim line with
  | [] => true
  | _ :: _ => false
  end.

(** The [while] loop of lines 60-63 over [lines[i+1..]]: [None] when [j]
    runs off the end. *)
Fixpoint nextNonBlank (rest : list str) : option str :=
  match rest with
  | [] => None
  | l :: rest' => if isBlank l then nextNonBlank rest' else Some l
  end.

(** One iteration of the [for] loop, at line [line] with [rest] below it. *)
Definition scanLine (line : str) (rest : list str) (m : AnnotationIndex)
  : AnnotationIndex :=
  match annotationMatch line with
  | Some annotation =>
      match nextNonBlank rest with
      | Some nextLine =>
          match variableMatch nextLine with
          | Some variableName => JsMap.set annotation variableName m
          | None => m
          end
      | None => m
      end
  | None => m
  end.

Fixpoint scanLines (lines : list str) (m : AnnotationIndex) : AnnotationIndex :=
  match lines with
  | [] => m
  | line :: rest => scanLines rest (scanLine line rest m)
  end.

Definition scan (text : str) : AnnotationIndex :=
  scanLines (split_lines text) (JsMap.empty str).

(** ** Timers and the debouncer (lines 8-18) *)

Module Timers.

Section WithState.
(** [S] is everything a timer callback can read or write. *)
Variable S : Type.

Record Timer := { tid : nat; due : nat; callback : S -> S }.

(** The event loop: the clock, the next fresh timer handle, the timers
    that have been set and neither fired nor cleared, and the heap. *)
Record Loop := { now : nat; nextId : nat; pending : list Timer; state : S }.

(** The delay is taken as it is given.  Node replaces a delay below 1 or
    above 2^31 - 1 by 1, so this is [setTimeout] for delays from 1 to
    2^31 - 1; the extension only ever passes 300. *)
Definition setTimeout (cb : S -> S) (delay : nat) (w : Loop) : nat * Loop :=
  (nextId w,
   {| now := now w; nextId := Datatypes.S (nextId w);
      pending := pending w ++ [{| tid := nextId w; due := now w + delay; callback := cb |}];
      state := state w |}).

Definition clearTimeout (id : nat) (w : Loop) : Loop :=
  {| now := now w; nextId := nextId w;
     pending := filter (fun t => negb (Nat.eqb (tid t) id)) (pending w);
     state := state w |}.

(** Timers fire by due time, and in the order they were set when due
    together. *)
Definition fires_before (a b : Timer) : bool :=
  (due a <? due b) || ((due a =? due b) && (tid a <=? tid b)).

Fixpoint insertTimer (t : Timer) (l : list Timer) : list Timer :=
  match l with
  | [] => [t]
  | u :: l' => if fires_before t u then t :: l else u :: insertTimer t l'
  end.

Definition fireOrder (l : list Timer) : list Timer := fold_right insertTimer [] l.

Definition isDue (T : nat) (t : Timer) : bool := due t <=? T.

(** Let the clock reach [T]: every timer due by then runs its callback. *)
Definition elapse (T : nat) (w : Loop) : Loop :=
  {| now := Nat.max (now w) T; nextId := nextId w;
     pending := filter (fun t => negb (isDue T t)) (pending w);
     state := fold_left (fun s t => callback t s)
                (fireOrder (filter (isDue T) (pending w))) (state w) |}.

(** The closure variable [timer] of one wrapper, next to the loop. *)
Definition Debouncer := (option nat * Loop)%type.

(** [debounce(callback, delay)]: the function it returns, applied to
    [args]. *)
Definition debounce (A : Type) (callback : A -> S -> S) (delay : nat)
  (args : A) (d : Debouncer) : Debouncer :=
  let '(timer, w) := d in
  let w1 := match timer with
            | Some id => clearTimeout id w
            | None => w
            end in
  let '(id, w2) := setTimeout (fun s => callback args s) delay w1 in
  (Some id, w2).

(** Calls of one wrapper at the given times, in order. *)
Fixpoint callsAt (A : Type) (trigger : A -> Debouncer -> Debouncer)
  (calls : list (nat * A)) (d : Debouncer) : Debouncer :=
  match calls with
  | [] => d
  | (t, a) :: rest => callsAt trigger rest (trigger a (fst d, elapse t (snd d)))
  end.

End WithState.

End Timers.

Import Timers.

(** ** Host objects *)

(** A [vscode.Uri] as far as the extension looks at it: [uri.scheme],
    [uri.fsPath] and the string [uri.toString()] returns. *)
Record Uri := { scheme : str; fsPath : str; toString : str }.

Record TextDocument := { uri : Uri }.

Record TextEditor := { document : TextDocument }.

(** The text of an open document as the host keeps it: its lines and the
    end-of-line sequence that joins them. *)
Record Buffer := { bufLines : list str; bufEol : str }.

Fixpoint join (sep : str) (ls : list str) : str :=
  match ls with
  | [] => []
  | [l] => l
  | l :: rest => l ++ sep ++ join sep rest
  end.

Record Host := {
  workspaceFolders : option (list Uri);
  visibleTextEditors : list TextEditor;
  buffers : str -> Buffer
}.

(** [doc.getText()] reads the live buffer. *)
Definition getText (h : Host) (doc : TextDocument) : str :=
  let b := buffers h (toString (uri doc)) in join (bufEol b) (bufLines b).

Record Position := { line : nat; character : nat }.

(** [doc.lineAt(position)]: [None] stands for the exception on a line
    number outside the document. *)
Definition lineAt (h : Host) (doc : TextDocument) (p : Position) : option str :=
  nth_error (bufLines (buffers h (toString (uri doc)))) (line p).

(** [position.translate(lineDelta, characterDelta)]: [None] stands for the
    exception on a negative coordinate. *)
Definition translate (p : Position) (lineDelta characterDelta : Z) : option Position :=
  let l := (Z.of_nat (line p) + lineDelta)%Z in
  let c := (Z.of_nat (character p) + characterDelta)%Z in
  if ((l <? 0) || (c <? 0))%Z then None
  else Some {| line := Z.to_nat l; character := Z.to_nat c |}.

Record Range := { rangeStart : Position; rangeEnd : Position }.

(** [a.isBefore(b)] *)
Definition isBefore (a b : Position) : bool :=
  (line a <? line b) || ((line a =? line b) && (character a <? character b)).

(** [new vscode.Range(a, b)] orders its two ends. *)
Definition mkRange (a b : Position) : Range :=
  if isBefore a b then {| rangeStart := a; rangeEnd := b |}
  else {| rangeStart := b; rangeEnd := a |}.

Record TextEdit := { range : Range; newText : str }.

Definition TextEdit_replace (r : Range) (t : str) : TextEdit :=
  {| range := r; newText := t |}.

Definition TextEdit_insert (p : Position) (t : str) : TextEdit :=
  {| range := mkRange p p; newText := t |}.

Inductive CompletionItemKind := Variable_.

Record CompletionItem := {
  label : str;
  kind : CompletionItemKind;
  detail : str;
  sortText : str;
  preselect : bool;
  filterText : str;
  textEdit : TextEdit
}.

(** ** The extension's state and parseDocument (lines 5, 22-81) *)

Definition Store := JsMap.t AnnotationIndex.

Record Ext := { host : Host; documentAnnotations : Store }.

Definition s_file : str := of_string "file".
Definition s_node_modules : str := of_string "node_modules".
Definition s_vscode : str := of_string ".vscode".

Definition isInWorkspace (folders : list Uri) (doc : TextDocument) : bool :=
  existsb (fun folder => startsWith (fsPath (uri doc)) (fsPath folder)) folders.

Definition isExcluded (doc : TextDocument) : bool :=
  includes (fsPath (uri doc)) s_node_modules || includes (fsPath (uri doc)) s_vscode.

Definition parseDocument (doc : TextDocument) (s : Ext) : Ext :=
  if negb (str_eqb (scheme (uri doc)) s_file) then s
  else
    match workspaceFolders (host s) with
    | None => s
    | Some folders =>
        if negb (isInWorkspace folders doc) then s
        else if isExcluded doc then s
        else
          let text := getText (host s) doc in
          {| host := host s;
             documentAnnotations :=
               JsMap.set (toString (uri doc)) (scan text) (documentAnnotations s) |}
    end.

(** ** Indexing controller (activate, lines 88-121) *)

(** The closure variable of [parseDocumentWithDebounce2] and the loop. *)
Definition Runtime := Debouncer Ext.

(** [parseDocumentWithDebounce] (lines 84-86) makes a wrapper with delay
    1000 and drops it without calling it; no handler calls this function. *)
Definition parseDocumentWithDebounce (doc : TextDocument) (rt : Runtime) : Runtime :=
  let _unused := debounce (fun _ : unit => parseDocument doc) 1000 in
  rt.

(** [const parseDocumentWithDebounce2 = debounce(parseDocument, 300)] *)
Definition parseDocumentWithDebounce2 : TextDocument -> Runtime -> Runtime :=
  debounce parseDocument 300.

(** Activation at time [t0]: an empty store, a fresh wrapper, and an
    immediate scan of every visible editor. *)
Definition activate (h : Host) (t0 : nat) : Runtime :=
  (None,
   {| now := t0; nextId := 0; pending := [];
      state := fold_left (fun s editor => parseDocument (document editor) s)
                 (visibleTextEditors h)
                 {| host := h; documentAnnotations := JsMap.empty AnnotationIndex |} |}).

Definition onDidChangeVisibleTextEditors (editors : list TextEditor) (rt : Runtime)
  : Runtime :=
  if 0 <? List.length editors then
    fold_left (fun r editor => parseDocumentWithDebounce2 (document editor) r) editors rt
  else rt.

Definition isVisible (h : Host) (doc : TextDocument) : bool :=
  existsb (fun editor =>
             str_eqb (toString (uri (document editor))) (toString (uri doc)))
    (visibleTextEditors h).

Definition onDidChangeTextDocument (doc : TextDocument) (rt : Runtime) : Runtime :=
  if isVisible (host (state (snd rt))) doc then parseDocumentWithDebounce2 doc rt
  else rt.

(** What the host does between two runs of the extension's code. *)
Inductive Event :=
| VisibleEditorsChanged (editors : list TextEditor)
| TextChanged (doc : TextDocument) (b : Buffer)
| WorkspaceFoldersChanged (folders : option (list Uri))
| Elapsed (t : nat).

Definition updHost (f : Host -> Host) (rt : Runtime) : Runtime :=
  (fst rt,
   {| now := now (snd rt); nextId := nextId (snd rt); pending := pending (snd rt);
      state := {| host := f (host (state (snd rt)));
                  documentAnnotations := documentAnnotations (state (snd rt)) |} |}).

Definition setVisible (editors : list TextEditor) (h : Host) : Host :=
  {| workspaceFolders := workspaceFolders h; visibleTextEditors := editors;
     buffers := buffers h |}.

Definition setBuffer (key : str) (b : Buffer) (h : Host) : Host :=
  {| workspaceFolders := workspaceFolders h; visibleTextEditors := visibleTextEditors h;
     buffers := fun k => if str_eqb k key then b else buffers h k |}.

Definition setFolders (folders : option (list Uri)) (h : Host) : Host :=
  {| workspaceFolders := folders; visibleTextEditors := visibleTextEditors h;
     buffers := buffers h |}.

(** The host changes its own state first and then calls the handler. *)
Definition step (ev : Event) (rt : Runtime) : Runtime :=
  match ev with
  | VisibleEditorsChanged editors =>
      onDidChangeVisibleTextEditors editors (updHost (setVisible editors) rt)
  | TextChanged doc b =>
      onDidChangeTextDocument doc (updHost (setBuffer (toString (uri doc)) b) rt)
  | WorkspaceFoldersChanged folders => updHost (setFolders folders) rt
  | Elapsed t => (fst rt, elapse t (snd rt))
  end.

Definition steps (evs : list Event) (rt : Runtime) : Runtime :=
  fold_left (fun r ev => step ev r) evs rt.

(** ** Completion resolver (provideCompletionItems, lines 128-179) *)

(** The pattern of line 140: an [@], group 1 = [[^\s@]] any number of
    times (greedy), then the end of the input ([$] without the [m] flag). *)
Definition atRegex : regex :=
  Seq (Chr (isChar c_at)) (Seq (Group 1 (Star isLabelChar)) Eos).

(** [linePrefix.match(...)] and [atMatch[1]]. *)
Definition atMatch (linePrefix : str) : option str :=
  match search atRegex linePrefix with
  | Some c => c 1
  | None => None
  end.

(** The template literal's fixed text: U+66FF U+6362 U+4E3A, a colon and
    a space. *)
Definition detailPrefix : str := [26367; 25442; 20026; 58; 32]%N.

Definition completionFor (typedAnnotation : str) (position : Position)
  (annotation variableName : str) : option CompletionItem :=
  let edit :=
    if List.length typedAnnotation + 1 <=? character position then
      match translate position 0 (- Z.of_nat (List.length typedAnnotation) - 1) with
      | Some startPos =>
          Some (TextEdit_replace (mkRange startPos position) variableName)
      | None => None
      end
    else Some (TextEdit_insert position variableName) in
  match edit with
  | Some e =>
      Some {| label := annotation; kind := Variable_;
              detail := detailPrefix ++ variableName;
              sortText := [0%N]; preselect := true;
              filterText := c_at :: annotation;
              textEdit := e |}
  | None => None
  end.

(** The [for ... of annotationMap] loop, in insertion order. *)
Fixpoint completionLoop (typedAnnotation : str) (position : Position)
  (entries : AnnotationIndex) : option (list CompletionItem) :=
  match entries with
  | [] => Some []
  | (annotation, variableName) :: rest =>
      if startsWith annotation typedAnnotation then
        match completionFor typedAnnotation position annotation variableName with
        | Some item =>
            match completionLoop typedAnnotation position rest with
            | Some items => Some (item :: items)
            | None => None
            end
        | None => None
        end
      else completionLoop typedAnnotation position rest
  end.

(** The host always passes a document and a position, so the guard of
    line 129 is left out.  [None] stands for an exception escaping to the
    host. *)
Definition provideCompletionItems (s : Ext) (document_ : TextDocument)
  (position : Position) : option (list CompletionItem) :=
  if negb (str_eqb (scheme (uri document_)) s_file) then Some []
  else
    match lineAt (host s) document_ position with
    | None => None
    | Some text =>
        let linePrefix := substr0 text (character position) in
        match atMatch linePrefix with
        | Some typedAnnotation =>
            let annotationMap :=
              match JsMap.get (toString (uri document_)) (documentAnnotations s) with
              | Some m => m
              | None => JsMap.empty str
              end in
            completionLoop typedAnnotation position annotationMap
        | None => Some []
        end
    end.

(** * Vocabulary of the properties *)

(** ** Strings and patterns *)

(** The first character of [s], if any, is outside the class [p]. *)
Definition stopsAt (p : char -> bool) (s : str) : Prop :=
  match s with
  | [] => True
  | x :: _ => p x = false
  end.

Definition isSuffix (s' s : str) : Prop := exists pre, s = pre ++ s'.

(** The text of [text] from column [a] up to column [b]. *)
Definition span (text : str) (a b : nat) : str := firstn (b - a) (skipn a text).

(** The parts of [variableRegex]. *)
Definition keywords : regex := Alt (Lit kw_const) (Alt (Lit kw_let) (Lit kw_var)).

Definition wordThen (n : nat) (e : char) : regex :=
  Seq (Group n (Plus isWord)) (Seq (Star isSpace) (Chr (isChar e))).

Definition declTail : regex := Seq (Plus isSpace) (wordThen 1 c_eq).

(** Neither [=] nor [:]. *)
Definition noSign (x : char) : bool := negb (isChar c_eq x || isChar c_colon x).

(** ** Lines the scanner looks for *)

Definition isKeyword (kw : str) : Prop := kw = kw_const \/ kw = kw_let \/ kw = kw_var.

Definition isIdentifier (X : str) : Prop := X <> [] /\ forallb isWord X = true.

(** [const X = ...], [let X = ...] or [var X = ...], possibly indented. *)
Definition isDeclarationOf (X line : str) : Prop :=
  exists ws0 kw ws1 ws2 rest,
    forallb isSpace ws0 = true /\ isKeyword kw /\
    ws1 <> [] /\ forallb isSpace ws1 = true /\ forallb isSpace ws2 = true /\
    line = ws0 ++ kw ++ ws1 ++ X ++ ws2 ++ c_eq :: rest.

(** [X: value], possibly indented. *)
Definition isPropertyOf (X line : str) : Prop :=
  exists ws0 rest,
    forallb isSpace ws0 = true /\ line = ws0 ++ X ++ c_colon :: rest.

(** A [//] comment line, possibly indented. *)
Definition isCommentLine (line : str) : bool :=
  startsWith (trimStart line) [c_slash; c_slash].

(** ** Completion candidates *)

(** The index the resolver reads for [doc]: an absent entry counts as an
    empty one. *)
Definition indexOf (s : Ext) (doc : TextDocument) : AnnotationIndex :=
  match JsMap.get (toString (uri doc)) (documentAnnotations s) with
  | Some m => m
  | None => JsMap.empty str
  end.

(** The candidate built for one index entry when the [@typed] span lies
    left of the cursor. *)
Definition candidate (typed : str) (position : Position) (entry : str * str)
  : CompletionItem :=
  {| label := fst entry; kind := Variable_;
     detail := detailPrefix ++ snd entry;
     sortText := [0%N]; preselect := true;
     filterText := c_at :: fst entry;
     textEdit :=
       {| range :=
            {| rangeStart := {| line := line position;
                                character := character position - List.length typed - 1 |};
               rangeEnd := position |};
          newText := snd entry |} |}.

(** ** The debouncer *)

(** The wrapper is armed at time [t] with [a]: its one timer is the only
    pending one, is due [delay] after [t] and will run [action a]. *)
Definition armed (S A : Type) (action : A -> S -> S) (delay t : nat)
  (a : A) (s0 : S) (d : Debouncer S) : Prop :=
  exists id,
    fst d = Some id /\ now (snd d) = t /\ state (snd d) = s0 /\
    pending (snd d)
    = [{| tid := id; due := t + delay; callback := fun s => action a s |}].

(** ** Workspace roots and excluded directories *)

(** No workspace folder is there, or none of them is a prefix of the
    document's path: the test of lines 29-40. *)
Definition outsideRoots (folders : option (list Uri)) (doc : TextDocument) : bool :=
  match folders with
  | None => true
  | Some fs => negb (isInWorkspace fs doc)
  end.

(** Documents the host hands over under the URI string of [doc] have the
    file path of [doc]. *)
Definition sameFile (doc d : TextDocument) : Prop :=
  toString (uri d) = toString (uri doc) -> fsPath (uri d) = fsPath (uri doc).

(** An event that leaves [doc] outside the roots. *)
Definition eventRespects (doc : TextDocument) (ev : Event) : Prop :=
  match ev with
  | VisibleEditorsChanged editors => Forall (fun e => sameFile doc (document e)) editors
  | TextChanged d _ => sameFile doc d
  | WorkspaceFoldersChanged folders => outsideRoots folders doc = true
  | Elapsed _ => True
  end.

(** [doc] lies outside the roots and the store has no entry for it. *)
Definition unindexed (doc : TextDocument) (s : Ext) : Prop :=
  outsideRoots (workspaceFolders (host s)) doc = true /\
  JsMap.get (toString (uri doc)) (documentAnnotations s) = None.

Definition keepsUnindexed (doc : TextDocument) (tm : Timer Ext) : Prop :=
  forall s, unindexed doc s -> unindexed doc (callback tm s).

Definition invariant (doc : TextDocument) (rt : Runtime) : Prop :=
  unindexed doc (state (snd rt)) /\ Forall (keepsUnindexed doc) (pending (snd rt)).

Fixpoint splitOn (sep : char) (s : str) : list str :=
  match s with
  | [] => [[]]
  | x :: s' => if (x =? sep)%N then [] :: splitOn sep s' else cons_head x (splitOn sep s')
  end.

(** The reading of the specification: a whole path segment named [name]. *)
Definition hasSegment (path name : str) : bool :=
  existsb (str_eqb name) (splitOn c_slash path).

(** ** Vocabulary of the further properties *)

(** Neither LF nor CR. *)
Definition noEolChar (c : char) : bool := negb ((c =? c_lf) || (c =? c_cr))%N.

Definition notSlash (c : char) : bool := negb (isChar c_slash c).

(** A buffer as the host keeps it: at least one line, LF or CRLF between
    the lines, no line break inside a line. *)
Definition wellFormedBuffer (b : Buffer) : Prop :=
  bufLines b <> [] /\
  (bufEol b = [c_lf] \/ bufEol b = [c_cr; c_lf]) /\
  Forall (fun l => forallb noEolChar l = true) (bufLines b).

(** The three tests of lines 24-45 that let [parseDocument] go on. *)
Definition eligible (h : Host) (doc : TextDocument) : bool :=
  str_eqb (scheme (uri doc)) s_file &&
  match workspaceFolders h with
  | Some folders => isInWorkspace folders doc
  | None => false
  end &&
  negb (isExcluded doc).

(** What a run of calls of one wrapper comes to: the pending call and the
    state, where a call that comes a full delay or more after the one
    before lets that one run first. *)
Fixpoint settled (S A : Type) (action : A -> S -> S) (delay : nat)
  (t : nat) (a : A) (s : S) (calls : list (nat * A)) : nat * A * S :=
  match calls with
  | [] => (t, a, s)
  | (t', b) :: rest =>
      settled action delay t' b (if t + delay <=? t' then action a s else s) rest
  end.

(** Call times in order, none before [t]. *)
Fixpoint inOrder (A : Type) (t : nat) (calls : list (nat * A)) : Prop :=
  match calls with
  | [] => True
  | (t', _) :: rest => t <= t' /\ inOrder t' rest
  end.

(** Each call comes before the delay of the one before has run out. *)
Fixpoint inBurst (A : Type) (delay t : nat) (calls : list (nat * A)) : Prop :=
  match calls with
  | [] => True
  | (t', _) :: rest => t <= t' < t + delay /\ inBurst delay t' rest
  end.

(** Each call comes a full delay or more after the one before. *)
Fixpoint spaced (A : Type) (delay t : nat) (calls : list (nat * A)) : Prop :=
  match calls with
  | [] => True
  | (t', _) :: rest => t + delay <= t' /\ spaced delay t' rest
  end.

(** At most one timer is pending; it is the wrapper's current one and it
    scans a document. *)
Definition oneScanPending (rt : Runtime) : Prop :=
  pending (snd rt) = [] \/
  exists tm d,
    pending (snd rt) = [tm] /\ fst rt = Some (tid tm) /\
    callback tm = parseDocument d.

(** The documents an event hands to the extension. *)
Definition eventDocuments (ev : Event) : list TextDocument :=
  match ev with
  | VisibleEditorsChanged editors => map document editors
  | TextChanged d _ => [d]
  | WorkspaceFoldersChanged _ => []
  | Elapsed _ => []
  end.

(** The documents the host has handed over: those visible at activation
    and those of the events since. *)
Definition handedOver (h : Host) (evs : list Event) : list TextDocument :=
  map document (visibleTextEditors h) ++ flat_map eventDocuments evs.

(** Every entry of the store is kept under the URI string of a document
    in [D] that is a file document outside the excluded directories. *)
Definition storeOfScanned (D : TextDocument -> Prop) (s : Ext) : Prop :=
  forall k m, JsMap.get k (documentAnnotations s) = Some m ->
  exists d, D d /\ toString (uri d) = k /\ scheme (uri d) = s_file /\
            isExcluded d = false.

(** At most one timer is pending, and it scans a document in [D]. *)
Definition oneScanPendingOf (D : TextDocument -> Prop) (rt : Runtime) : Prop :=
  pending (snd rt) = [] \/
  exists tm d,
    pending (snd rt) = [tm] /\ fst rt = Some (tid tm) /\
    callback tm = parseDocument d /\ D d.

(** The store and the pending timer come from documents in [D]. *)
Definition scannedOnly (D : TextDocument -> Prop) (rt : Runtime) : Prop :=
  storeOfScanned D (state (snd rt)) /\ oneScanPendingOf D rt.

(** The delays Node's [setTimeout] takes as they are: it replaces a delay
    below 1 or above 2^31 - 1 by 1. *)
Definition nodeDelay (delay : nat) : Prop :=
  1 <= delay /\ (Z.of_nat delay <= 2147483647)%Z.

Fixpoint isPrefixOf (a b : list str) : bool :=
  match a, b with
  | [], _ => true
  | x :: a', y :: b' => str_eqb x y && isPrefixOf a' b'
  | _ :: _, [] => false
  end.

(** The reading of the specification: the path lies under the root, segment
    by segment. *)
Definition underRoot (root path : str) : bool :=
  isPrefixOf (splitOn c_slash root) (splitOn c_slash path).

(** * Sample inputs *)

(** ** Texts *)

Definition text_uid : str :=
  of_string "// @uid" ++ [c_lf] ++ of_string "const userId = 5;".

Definition text_twice : str :=
  of_string "// @id" ++ [c_lf] ++ of_string "const first = 1;" ++ [c_lf] ++
  of_string "// @id" ++ [c_lf] ++ of_string "  second: 2,".

Definition text_two_labels : str :=
  of_string "// @a" ++ [c_lf] ++ [c_lf] ++ of_string "// @b".

Definition text_note : str :=
  of_string "// @a" ++ [c_lf] ++ of_string "// note: hi".

Definition text_blank_label : str :=
  of_string "// @ " ++ [c_lf] ++ of_string "const x = 1;".

(** ** Documents, buffers and hosts *)

Definition fileUri (path : string) : Uri :=
  {| scheme := s_file; fsPath := of_string path;
     toString := of_string "file://" ++ of_string path |}.

Definition docAt (path : string) : TextDocument := {| uri := fileUri path |}.

Definition bufferOf (ls : list string) : Buffer :=
  {| bufLines := map of_string ls; bufEol := [c_lf] |}.

Definition emptyBuffer : Buffer := {| bufLines := [[]]; bufEol := [c_lf] |}.

Fixpoint bufferIn (bufs : list (TextDocument * Buffer)) (key : str) : Buffer :=
  match bufs with
  | [] => emptyBuffer
  | (d, b) :: rest => if str_eqb (toString (uri d)) key then b else bufferIn rest key
  end.

Definition hostOf (folders : option (list Uri)) (visible : list TextDocument)
  (bufs : list (TextDocument * Buffer)) : Host :=
  {| workspaceFolders := folders;
     visibleTextEditors := map (fun d => {| document := d |}) visible;
     buffers := bufferIn bufs |}.

Definition root_p : Uri := fileUri "/p".
Definition doc_a : TextDocument := docAt "/p/a.ts".
Definition doc_b : TextDocument := docAt "/p/b.ts".
Definition doc_out : TextDocument := docAt "/elsewhere/x.ts".
Definition doc_theme : TextDocument := docAt "/p/my.vscode-theme/a.ts".

Definition buffer_uid : Buffer := bufferOf ["// @uid"; "const userId = 5;"]%string.
Definition index_uid : AnnotationIndex := [(of_string "uid", of_string "userId")].

Definition buffer_n : Buffer := bufferOf ["// @n"; "let count = 0;"]%string.
Definition index_n : AnnotationIndex := [(of_string "n", of_string "count")].

(** The index [{foo: userId, bar: count}] under [a.ts], whose one line
    reads [send(@f]. *)
Definition index_foo_bar : AnnotationIndex :=
  JsMap.set (of_string "bar") (of_string "count")
    (JsMap.set (of_string "foo") (of_string "userId") (JsMap.empty str)).

Definition ext_foo_bar : Ext :=
  {| host := hostOf (Some [root_p]) [doc_a] [(doc_a, bufferOf ["send(@f"%string])];
     documentAnnotations :=
       JsMap.set (toString (uri doc_a)) index_foo_bar (JsMap.empty AnnotationIndex) |}.

(** [a.ts] holds [text_blank_label] and a third line with a bare [@]. *)
Definition host_blank_label : Host :=
  hostOf (Some [root_p]) [doc_a]
    [(doc_a, bufferOf ["// @ "; "const x = 1;"; "@"]%string)].

(** [x.ts] is visible and annotated but lies outside the root [/p]. *)
Definition host_out : Host :=
  hostOf (Some [root_p]) [doc_out; doc_a]
    [(doc_out, bufferOf ["// @uid"; "const userId = 5;"; "@u"]%string);
     (doc_a, buffer_n)].

Definition events_out : list Event :=
  [ TextChanged doc_out (bufferOf ["// @id"; "const userId = 5;"; "@"]%string);
    Elapsed 400;
    VisibleEditorsChanged [{| document := doc_a |}; {| document := doc_out |}];
    Elapsed 2000 ].

(** [a.ts] is visible and empty; at time 7 its text becomes [buffer_uid]. *)
Definition host_edit : Host := hostOf (Some [root_p]) [doc_a] [(doc_a, emptyBuffer)].

Definition rt_edit : Runtime := step (TextChanged doc_a buffer_uid) (activate host_edit 7).

(** [a.ts] and [b.ts] are visible and empty; [a.ts] is edited at time 0
    and [b.ts] at time 100. *)
Definition host_two : Host :=
  hostOf (Some [root_p]) [doc_a; doc_b] [(doc_a, emptyBuffer); (doc_b, emptyBuffer)].

Definition events_two : list Event :=
  [ TextChanged doc_a buffer_uid; Elapsed 100; TextChanged doc_b buffer_n ].

(** Both documents are open with their texts, neither is visible yet. *)
Definition host_hidden : Host :=
  hostOf (Some [root_p]) [] [(doc_a, buffer_uid); (doc_b, buffer_n)].

(** [my.vscode-theme/a.ts] and [a.ts] hold the same text. *)
Definition host_theme : Host :=
  hostOf (Some [root_p]) [doc_theme; doc_a]
    [(doc_theme, buffer_uid); (doc_a, buffer_uid)].

(** A callback that writes its argument to a log. *)
Definition logArg (a : nat) (log : list nat) : list nat := log ++ [a].

Definition loop0 : Loop (list nat) :=
  {| now := 0; nextId := 0; pending := []; state := [] |}.

(** An empty line and a line of blanks and a tab between the annotation
    and the declaration. *)
Definition text_uid_spaced : str :=
  of_string "// @uid" ++ [c_lf] ++ [c_lf] ++ of_string "  " ++ [9%N] ++ [c_lf] ++
  of_string "const userId = 5;".

Definition text_dollar : str :=
  of_string "// @t" ++ [c_lf] ++ of_string "const $el = 1".

Definition text_dollar_suffix : str :=
  of_string "// @t" ++ [c_lf] ++ of_string "const clicks$ = of({a: 1})".

(** [/pq/a.ts] is a sibling of the root [/p], not a file under it. *)
Definition doc_pq : TextDocument := docAt "/pq/a.ts".

(** [a.ts] holds the annotated declaration and a third line [@u]. *)
Definition buffer_typing : Buffer := bufferOf ["// @uid"; "const userId = 5;"; "@u"]%string.

Definition host_pq : Host := hostOf (Some [root_p]) [doc_pq] [(doc_pq, buffer_typing)].

Definition ext_typing : Ext :=
  {| host := hostOf (Some [root_p]) [doc_a] [(doc_a, buffer_typing)];
     documentAnnotations := JsMap.empty AnnotationIndex |}.

(** * Properties *)

(** ** Character classes *)

Ltac char_bools :=
  unfold isLabelChar, isDot, isLineTerminator, isSpace, isWord, isChar,
    c_slash, c_at, c_eq, c_colon, c_lf, c_cr in *;
  repeat match goal with
    | H : negb _ = true |- _ => apply negb_true_iff in H
    | H : negb _ = false |- _ => apply negb_false_iff in H
    | H : _ = false |- _ => apply not_true_iff_false in H
    | |- _ = false => apply not_true_iff_false; intro
    | |- negb _ = true => apply negb_true_iff
    end;
  repeat match goal with
    | H : _ = true |- _ =>
        progress rewrite ?orb_true_iff, ?andb_true_iff, ?N.eqb_eq, ?N.leb_le in H
    | H : ~ (_ = true) |- _ =>
        progress rewrite ?orb_true_iff, ?andb_true_iff, ?N.eqb_eq, ?N.leb_le in H
    | |- _ = true =>
        progress rewrite ?orb_true_iff, ?andb_true_iff, ?N.eqb_eq, ?N.leb_le
    end;
  try lia.

Lemma word_not_space (x : char) : isWord x = true -> isSpace x = false.
Proof. intros H. char_bools. Qed.

Lemma space_not_word (x : char) : isSpace x = true -> isWord x = false.
Proof. intros H. char_bools. Qed.

Lemma colon_not_word : isWord c_colon = false.
Proof. reflexivity. Qed.

Lemma str_eqb_refl (a : str) : str_eqb a a = true.
Proof. unfold str_eqb. destruct (str_eq_dec a a); congruence. Qed.

Lemma str_eqb_eq (a b : str) : str_eqb a b = true <-> a = b.
Proof. unfold str_eqb. destruct (str_eq_dec a b); split; congruence. Qed.

Lemma str_eqb_neq (a b : str) : str_eqb a b = false <-> a <> b.
Proof. unfold str_eqb. destruct (str_eq_dec a b); split; congruence. Qed.

(** ** The matcher *)

Lemma star_greedy p k w s c r :
  forallb p w = true -> stopsAt p s -> k s c = Some r ->
  star p k (w ++ s) c = Some r.
Proof.
  induction w as [|x w IH]; simpl; intros Hw Hs Hk.
  - destruct s as [|y s]; simpl in *; [assumption|]. now rewrite Hs.
  - apply andb_true_iff in Hw as [Hx Hw]. rewrite Hx.
    now rewrite (IH Hw Hs Hk).
Qed.

Lemma plus_greedy p k x w s c r :
  p x = true -> forallb p w = true -> stopsAt p s -> k s c = Some r ->
  run (Plus p) k (x :: w ++ s) c = Some r.
Proof. intros Hx Hw Hs Hk. simpl. rewrite Hx. now apply star_greedy. Qed.

(** Backtracking over a run of [p] that ends at [s] visits exactly the
    tails of that run. *)
Lemma star_backtrack_none p k w s c :
  forallb p w = true -> stopsAt p s ->
  (forall w1 w2, w = w1 ++ w2 -> k (w2 ++ s) c = None) ->
  star p k (w ++ s) c = None.
Proof.
  induction w as [|x w IH]; simpl; intros Hw Hs Hk.
  - specialize (Hk [] [] eq_refl). simpl in Hk.
    destruct s as [|y s]; simpl in *; [assumption|]. now rewrite Hs.
  - apply andb_true_iff in Hw as [Hx Hw]. rewrite Hx.
    rewrite IH; simpl; trivial.
    + apply (Hk [] (x :: w) eq_refl).
    + intros w1 w2 ->. apply (Hk (x :: w1) w2 eq_refl).
Qed.

Lemma star_sound p k s c r :
  star p k s c = Some r ->
  exists w s', s = w ++ s' /\ forallb p w = true /\ k s' c = Some r.
Proof.
  induction s as [|x s IH]; simpl; intros H.
  - exists [], []. auto.
  - destruct (p x) eqn:Hx.
    + destruct (star p k s c) eqn:Hs; simpl in H.
      * destruct (IH H) as (w & s' & -> & Hw & Hk). inversion H; subst.
        exists (x :: w), s'. simpl. rewrite Hx. auto.
      * exists [], (x :: s). auto.
    + exists [], (x :: s). auto.
Qed.

Lemma isSuffix_refl s : isSuffix s s.
Proof. now exists []. Qed.

Lemma isSuffix_cons s' x s : isSuffix s' s -> isSuffix s' (x :: s).
Proof. intros [pre ->]. now exists (x :: pre). Qed.

Lemma isSuffix_trans a b c : isSuffix a b -> isSuffix b c -> isSuffix a c.
Proof. intros [p ->] [q ->]. exists (q ++ p). now rewrite app_assoc. Qed.

Lemma star_none p k s c :
  (forall s', isSuffix s' s -> k s' c = None) -> star p k s c = None.
Proof.
  induction s as [|x s IH]; simpl; intros Hk.
  - apply Hk, isSuffix_refl.
  - rewrite IH by (intros s' Hs; apply Hk, isSuffix_cons, Hs).
    simpl. rewrite (Hk _ (isSuffix_refl _)). now destruct (p x).
Qed.

(** A pattern only ever calls its continuation on a suffix of its input:
    when the continuation fails on all of them, so does the pattern. *)
Lemma run_none r : forall k s c,
  (forall s' c', isSuffix s' s -> k s' c' = None) -> run r k s c = None.
Proof.
  induction r; simpl; intros k s c Hk.
  - apply Hk, isSuffix_refl.
  - destruct s as [|x s]; trivial. destruct (p x); trivial.
    apply Hk, isSuffix_cons, isSuffix_refl.
  - apply star_none. intros; now apply Hk.
  - destruct s as [|x s]; trivial. destruct (p x); trivial.
    apply star_none. intros s' Hs. apply Hk, isSuffix_cons, Hs.
  - apply IHr1. intros s' c' Hs. apply IHr2. intros s'' c'' Hs'.
    apply Hk. eapply isSuffix_trans; eassumption.
  - rewrite IHr1, IHr2 by assumption. reflexivity.
  - apply IHr. intros s' c' Hs. now apply Hk.
  - destruct s; trivial. apply Hk, isSuffix_refl.
Qed.

Lemma search_none r s :
  (forall s', isSuffix s' s -> exec_at r s' = None) -> search r s = None.
Proof.
  induction s as [|x s IH]; simpl; intros H.
  - now rewrite (H [] (isSuffix_refl _)).
  - rewrite (H _ (isSuffix_refl _)). apply IH.
    intros s' Hs. apply H, isSuffix_cons, Hs.
Qed.

Lemma run_Lit l : forall k s c,
  run (Lit l) k s c = if startsWith s l then k (skipn (List.length l) s) c else None.
Proof.
  induction l as [|y l IH]; intros k s c; simpl.
  - now destruct s.
  - destruct s as [|x s]; simpl; trivial. unfold isChar.
    destruct (x =? y)%N; simpl; trivial.
Qed.

Lemma startsWith_app s l : startsWith s l = true -> s = l ++ skipn (List.length l) s.
Proof.
  revert s. induction l as [|y l IH]; simpl; intros s H; trivial.
  destruct s as [|x s]; [discriminate|].
  apply andb_true_iff in H as [Hxy H]. apply N.eqb_eq in Hxy. subst.
  f_equal. now apply IH.
Qed.

Lemma startsWith_iff s l : startsWith s l = true <-> exists t, s = l ++ t.
Proof.
  split.
  - intros H. eexists. now apply startsWith_app.
  - intros [t ->]. induction l; simpl; [now destruct t|]. now rewrite N.eqb_refl.
Qed.

Lemma run_Seq r1 r2 k s c : run (Seq r1 r2) k s c = run r1 (run r2 k) s c.
Proof. reflexivity. Qed.

Lemma run_Alt r1 r2 k s c : run (Alt r1 r2) k s c = orElse (run r1 k s c) (run r2 k s c).
Proof. reflexivity. Qed.

Lemma run_Group n r k s c :
  run (Group n r) k s c =
  run r (fun s' c' => k s' (setcap n (firstn (List.length s - List.length s') s) c')) s c.
Proof. reflexivity. Qed.

Lemma run_Chr_hit p k x s c : p x = true -> run (Chr p) k (x :: s) c = k s c.
Proof. intros H. simpl. now rewrite H. Qed.

Lemma run_Plus_stops p k s c : stopsAt p s -> run (Plus p) k s c = None.
Proof. destruct s as [|x s]; simpl; trivial. now intros ->. Qed.

Lemma search_here r s c : exec_at r s = Some c -> search r s = Some c.
Proof. intros H. destruct s; simpl; now rewrite H. Qed.

Lemma search_next r x s : exec_at r (x :: s) = None -> search r (x :: s) = search r s.
Proof. intros H. simpl. now rewrite H. Qed.

Lemma search_sound r s c :
  search r s = Some c -> exists s', isSuffix s' s /\ exec_at r s' = Some c.
Proof.
  induction s as [|x s IH]; simpl; intros H.
  - destruct (exec_at r []) eqn:E; [|discriminate].
    exists []. split; [apply isSuffix_refl | congruence].
  - destruct (exec_at r (x :: s)) eqn:E.
    + exists (x :: s). split; [apply isSuffix_refl | congruence].
    + destruct (IH H) as (s' & Hs & He). exists s'. split; trivial.
      now apply isSuffix_cons.
Qed.

Lemma firstn_length_diff (A : Type) (a b : list A) :
  firstn (List.length (a ++ b) - List.length b) (a ++ b) = a.
Proof.
  rewrite length_app. replace (List.length a + List.length b - List.length b)
    with (List.length a + 0) by lia.
  rewrite firstn_app_2. simpl. apply app_nil_r.
Qed.

(** Two maximal runs of the same class that start together end together. *)
Lemma run_unique p : forall a b s t,
  forallb p a = true -> forallb p b = true -> stopsAt p s -> stopsAt p t ->
  a ++ s = b ++ t -> a = b /\ s = t.
Proof.
  induction a as [|x a IH]; intros [|y b] s t Ha Hb Hs Ht E; simpl in *.
  - auto.
  - subst s. simpl in Hs. apply andb_true_iff in Hb as [Hy _]. congruence.
  - subst t. simpl in Ht. apply andb_true_iff in Ha as [Hx _]. congruence.
  - inversion E; subst. apply andb_true_iff in Ha as [_ Ha].
    apply andb_true_iff in Hb as [_ Hb].
    destruct (IH b s t Ha Hb Hs Ht H1) as [-> ->]. auto.
Qed.

(** ** The identifier-extraction pattern *)

Lemma variableRegex_eq :
  variableRegex = Alt (Seq keywords declTail) (wordThen 2 c_colon).
Proof. reflexivity. Qed.

Lemma wordThen_hit n e x X ws rest c :
  forallb isWord (x :: X) = true -> forallb isSpace ws = true ->
  isWord e = false -> isSpace e = false ->
  run (wordThen n e) accept ((x :: X) ++ ws ++ e :: rest) c = Some (setcap n (x :: X) c).
Proof.
  intros HX Hws He1 He2. unfold wordThen. rewrite run_Seq, run_Group.
  simpl in HX. apply andb_true_iff in HX as [Hx HX].
  change ((x :: X) ++ ws ++ e :: rest) with (x :: X ++ ws ++ e :: rest).
  apply plus_greedy; trivial.
  - destruct ws; simpl; trivial. simpl in Hws.
    apply andb_true_iff in Hws as [Hc _]. now apply space_not_word.
  - rewrite run_Seq.
    change (x :: X ++ ws ++ e :: rest) with ((x :: X) ++ ws ++ e :: rest).
    rewrite firstn_length_diff.
    change (run (Star isSpace) (run (Chr (isChar e)) accept) (ws ++ e :: rest)
              (setcap n (x :: X) c))
      with (star isSpace (run (Chr (isChar e)) accept) (ws ++ e :: rest)
              (setcap n (x :: X) c)).
    apply star_greedy; simpl; trivial.
    unfold isChar. now rewrite N.eqb_refl.
Qed.

Lemma wordThen_stops n e k s c : stopsAt isWord s -> run (wordThen n e) k s c = None.
Proof.
  intros H. unfold wordThen. rewrite run_Seq, run_Group. now apply run_Plus_stops.
Qed.

Lemma declTail_hit y ws1 x X ws2 rest c :
  forallb isSpace (y :: ws1) = true -> forallb isWord (x :: X) = true ->
  forallb isSpace ws2 = true ->
  run declTail accept ((y :: ws1) ++ (x :: X) ++ ws2 ++ c_eq :: rest) c
  = Some (setcap 1 (x :: X) c).
Proof.
  intros H1 HX H2. unfold declTail. rewrite run_Seq.
  simpl in H1. apply andb_true_iff in H1 as [Hy H1].
  change ((y :: ws1) ++ (x :: X) ++ ws2 ++ c_eq :: rest)
    with (y :: ws1 ++ (x :: X) ++ ws2 ++ c_eq :: rest).
  apply plus_greedy; trivial.
  - simpl. simpl in HX. apply andb_true_iff in HX as [Hx _].
    now apply word_not_space.
  - now apply wordThen_hit.
Qed.

(** After a run of word characters that ends in whitespace-then-colon, the
    tail of a declaration cannot match. *)
Lemma declTail_colon_none ws rest c :
  forallb isSpace ws = true -> run declTail accept (ws ++ c_colon :: rest) c = None.
Proof.
  intros H. unfold declTail. rewrite run_Seq.
  destruct ws as [|y ws]; [reflexivity|].
  simpl in H. apply andb_true_iff in H as [Hy H].
  change ((y :: ws) ++ c_colon :: rest) with (y :: ws ++ c_colon :: rest).
  simpl run. rewrite Hy.
  apply star_backtrack_none; simpl; trivial.
  intros w1 w2 ->. apply wordThen_stops.
  rewrite forallb_app in H. apply andb_true_iff in H as [_ H].
  destruct w2; simpl; trivial. simpl in H.
  apply andb_true_iff in H as [Hc _]. now apply space_not_word.
Qed.

Lemma keyword_then_none kw X ws rest c :
  forallb isWord kw = true -> forallb isWord X = true -> forallb isSpace ws = true ->
  run (Lit kw) (run declTail accept) (X ++ ws ++ c_colon :: rest) c = None.
Proof.
  intros Hkw HX Hws. rewrite run_Lit.
  destruct (startsWith _ kw) eqn:E; trivial.
  apply startsWith_app in E.
  set (u := skipn (List.length kw) (X ++ ws ++ c_colon :: rest)) in *.
  assert (Ht : stopsAt isWord (ws ++ c_colon :: rest)).
  { destruct ws; simpl; trivial. simpl in Hws.
    apply andb_true_iff in Hws as [Hc _]. now apply space_not_word. }
  destruct u as [|z u'] eqn:Eu; [reflexivity|].
  destruct (isSpace z) eqn:Hz.
  - assert (Hu : stopsAt isWord (z :: u')) by (simpl; now apply space_not_word).
    destruct (run_unique isWord X kw _ _ HX Hkw Ht Hu E) as [_ <-].
    now apply declTail_colon_none.
  - unfold declTail. rewrite run_Seq. simpl. now rewrite Hz.
Qed.

Lemma keywords_then_none X ws rest c :
  forallb isWord X = true -> forallb isSpace ws = true ->
  run (Seq keywords declTail) accept (X ++ ws ++ c_colon :: rest) c = None.
Proof.
  intros HX Hws. rewrite run_Seq. unfold keywords. rewrite !run_Alt.
  rewrite !keyword_then_none; trivial.
Qed.

Lemma keywords_hit kw k s c : isKeyword kw -> run keywords k (kw ++ s) c = k s c.
Proof.
  intros [-> | [-> | ->]]; unfold keywords; rewrite !run_Alt, !run_Lit; simpl;
    destruct (k s c); reflexivity.
Qed.

Lemma exec_variableRegex_space x s :
  isSpace x = true -> exec_at variableRegex (x :: s) = None.
Proof.
  intros H. unfold exec_at. rewrite variableRegex_eq, run_Alt, run_Seq.
  unfold keywords. rewrite !run_Alt, !run_Lit.
  rewrite wordThen_stops by (simpl; now apply space_not_word).
  assert (Hc : (x =? 99)%N = false) by char_bools.
  assert (Hl : (x =? 108)%N = false) by char_bools.
  assert (Hv : (x =? 118)%N = false) by char_bools.
  simpl. now rewrite Hc, Hl, Hv.
Qed.

Lemma search_variableRegex_skip ws s :
  forallb isSpace ws = true ->
  search variableRegex (ws ++ s) = search variableRegex s.
Proof.
  induction ws as [|x ws IH]; simpl app; intros H; trivial.
  simpl in H. apply andb_true_iff in H as [Hx H].
  rewrite search_next by now apply exec_variableRegex_space. now apply IH.
Qed.

(** A declaration line: indentation, keyword, whitespace, identifier,
    optional whitespace, [=]. *)
Lemma variableMatch_declaration ws0 kw ws1 X ws2 rest :
  forallb isSpace ws0 = true -> isKeyword kw ->
  ws1 <> [] -> forallb isSpace ws1 = true ->
  X <> [] -> forallb isWord X = true ->
  forallb isSpace ws2 = true ->
  variableMatch (ws0 ++ kw ++ ws1 ++ X ++ ws2 ++ c_eq :: rest) = Some X.
Proof.
  intros H0 Hkw N1 H1 NX HX H2. unfold variableMatch.
  rewrite search_variableRegex_skip by assumption.
  destruct ws1 as [|y ws1]; [congruence|]. destruct X as [|x X]; [congruence|].
  erewrite search_here.
  2:{ unfold exec_at. rewrite variableRegex_eq, run_Alt, run_Seq.
      rewrite keywords_hit by assumption.
      rewrite declTail_hit by assumption. reflexivity. }
  reflexivity.
Qed.

(** A property line: indentation, identifier, optional whitespace, [:]. *)
Lemma variableMatch_property ws0 X ws1 rest :
  forallb isSpace ws0 = true ->
  X <> [] -> forallb isWord X = true ->
  forallb isSpace ws1 = true ->
  variableMatch (ws0 ++ X ++ ws1 ++ c_colon :: rest) = Some X.
Proof.
  intros H0 NX HX H1. unfold variableMatch.
  rewrite search_variableRegex_skip by assumption.
  erewrite search_here.
  2:{ unfold exec_at. rewrite variableRegex_eq, run_Alt.
      rewrite keywords_then_none by assumption.
      destruct X as [|x X]; [congruence|].
      rewrite wordThen_hit by (trivial; reflexivity). reflexivity. }
  destruct X; [congruence|reflexivity].
Qed.

(** ** Blank lines *)

Lemma dropWhile_nil p s : dropWhile p s = [] -> forallb p s = true.
Proof.
  induction s as [|x s IH]; simpl; trivial.
  destruct (p x); [assumption|discriminate].
Qed.

Lemma dropWhile_stops p s : stopsAt p (dropWhile p s).
Proof.
  induction s as [|x s IH]; simpl; trivial.
  destruct (p x) eqn:E; trivial.
Qed.

Lemma forallb_rev (A : Type) (p : A -> bool) (l : list A) :
  forallb p (rev l) = forallb p l.
Proof.
  induction l as [|x l IH]; simpl; trivial.
  rewrite forallb_app, IH. simpl. rewrite andb_true_r. apply andb_comm.
Qed.

Lemma isBlank_spaces l : isBlank l = true -> forallb isSpace l = true.
Proof.
  unfold isBlank, trim, trimEnd, trimStart. intros H.
  destruct (rev (dropWhile isSpace (rev (dropWhile isSpace l)))) eqn:E; [|discriminate].
  apply (f_equal (@rev char)) in E. rewrite rev_involutive in E. simpl in E.
  apply dropWhile_nil in E. rewrite forallb_rev in E.
  pose proof (dropWhile_stops isSpace l) as Hs.
  destruct (dropWhile isSpace l) as [|x t] eqn:D.
  - now apply dropWhile_nil.
  - simpl in E, Hs. rewrite Hs in E. discriminate.
Qed.

(** A line of nothing but whitespace, the empty line included, is blank
    for the lookahead. *)
Lemma spaces_isBlank l : forallb isSpace l = true -> isBlank l = true.
Proof.
  intros H. unfold isBlank, trim, trimEnd, trimStart.
  assert (E : dropWhile isSpace l = []).
  { induction l as [|x l IH]; simpl; trivial.
    simpl in H. apply andb_true_iff in H as [-> H]. now apply IH. }
  rewrite E. reflexivity.
Qed.

Lemma whitespace_lines_blank blanks :
  Forall (fun l => forallb isSpace l = true) blanks ->
  Forall (fun l => isBlank l = true) blanks.
Proof.
  intros H. eapply Forall_impl; [|exact H]. intros l. apply spaces_isBlank.
Qed.

Lemma exec_annotationRegex_notslash s :
  stopsAt (isChar c_slash) s -> exec_at annotationRegex s = None.
Proof.
  destruct s as [|x s]; simpl; intros H; [reflexivity|].
  unfold exec_at, annotationRegex. simpl. now rewrite H.
Qed.

Lemma forallb_suffix (p : char -> bool) s' s :
  isSuffix s' s -> forallb p s = true -> forallb p s' = true.
Proof.
  intros [pre ->]. rewrite forallb_app. intros H.
  now apply andb_true_iff in H as [_ H].
Qed.

Lemma blank_not_annotation l : isBlank l = true -> annotationMatch l = None.
Proof.
  intros H. apply isBlank_spaces in H. unfold annotationMatch.
  rewrite search_none; trivial.
  intros s' Hs. apply exec_annotationRegex_notslash.
  pose proof (forallb_suffix isSpace Hs H) as H'.
  destruct s' as [|x s']; simpl; trivial. simpl in H'.
  apply andb_true_iff in H' as [Hx _]. char_bools.
Qed.

Lemma nonblank_with x a b :
  isSpace x = false -> isBlank (a ++ x :: b) = false.
Proof.
  intros H. destruct (isBlank (a ++ x :: b)) eqn:E; trivial.
  apply isBlank_spaces in E. rewrite forallb_app in E.
  apply andb_true_iff in E as [_ E]. simpl in E. rewrite H in E. discriminate.
Qed.

Lemma nextNonBlank_skip blanks d post :
  Forall (fun l => isBlank l = true) blanks -> isBlank d = false ->
  nextNonBlank (blanks ++ d :: post) = Some d.
Proof.
  induction 1 as [|l blanks Hl _ IH]; simpl; intros Hd.
  - now rewrite Hd.
  - rewrite Hl. now apply IH.
Qed.

(** ** The index *)

Lemma get_set_same (V : Type) k (v : V) m : JsMap.get k (JsMap.set k v m) = Some v.
Proof.
  induction m as [|[k' v'] m IH]; simpl.
  - now rewrite str_eqb_refl.
  - destruct (str_eqb k' k) eqn:E; simpl; rewrite E; trivial.
Qed.

Lemma get_set_other (V : Type) k k' (v : V) m :
  k' <> k -> JsMap.get k (JsMap.set k' v m) = JsMap.get k m.
Proof.
  intros N. induction m as [|[k0 v0] m IH]; simpl.
  - apply str_eqb_neq in N. now rewrite N.
  - destruct (str_eqb k0 k') eqn:E; simpl.
    + apply str_eqb_eq in E. subst k0.
      apply str_eqb_neq in N. now rewrite N.
    + destruct (str_eqb k0 k); trivial.
Qed.

(** ** The scan loop *)

Lemma scanLine_other L line rest m :
  annotationMatch line <> Some L ->
  JsMap.get L (scanLine line rest m) = JsMap.get L m.
Proof.
  intros N. unfold scanLine. destruct (annotationMatch line) as [a|]; trivial.
  destruct (nextNonBlank rest) as [d|]; trivial.
  destruct (variableMatch d) as [v|]; trivial.
  apply get_set_other. congruence.
Qed.

Lemma scanLine_hit L line rest d X m :
  annotationMatch line = Some L -> nextNonBlank rest = Some d ->
  variableMatch d = Some X ->
  JsMap.get L (scanLine line rest m) = Some X.
Proof.
  intros H1 H2 H3. unfold scanLine. rewrite H1, H2, H3. apply get_set_same.
Qed.

Lemma scanLine_miss L line rest m :
  nextNonBlank rest = None \/
  (exists d, nextNonBlank rest = Some d /\ variableMatch d = None) ->
  JsMap.get L (scanLine line rest m) = JsMap.get L m.
Proof.
  unfold scanLine. destruct (annotationMatch line) as [a|]; trivial.
  intros [-> | (d & -> & ->)]; trivial.
Qed.

(** Lines that do not carry the label [L] leave its entry alone. *)
Lemma scanLines_other L lines : forall m,
  (forall l, In l lines -> annotationMatch l <> Some L) ->
  JsMap.get L (scanLines lines m) = JsMap.get L m.
Proof.
  induction lines as [|l rest IH]; simpl; intros m H; trivial.
  rewrite IH by (intros; apply H; auto).
  apply scanLine_other. apply H. auto.
Qed.

(** The last annotation line labelled [L] decides the entry of [L]. *)
Lemma scanLines_last L pre a rest d X : forall m,
  annotationMatch a = Some L -> nextNonBlank rest = Some d ->
  variableMatch d = Some X ->
  (forall l, In l rest -> annotationMatch l <> Some L) ->
  JsMap.get L (scanLines (pre ++ a :: rest) m) = Some X.
Proof.
  induction pre as [|p pre IH]; simpl; intros m Ha Hd HX Hrest.
  - rewrite scanLines_other by assumption. eapply scanLine_hit; eassumption.
  - now apply IH.
Qed.

Lemma scanLines_absent L lines : forall m,
  JsMap.get L m = None ->
  (forall l, In l lines -> annotationMatch l <> Some L) ->
  JsMap.get L (scanLines lines m) = None.
Proof. intros m Hm H. now rewrite scanLines_other. Qed.

(** An annotation line whose lookahead finds no identifier, among lines
    that do not carry its label, leaves the label out. *)
Lemma scanLines_dropped L pre a rest : forall m,
  JsMap.get L m = None ->
  (nextNonBlank rest = None \/
   exists d, nextNonBlank rest = Some d /\ variableMatch d = None) ->
  (forall l, In l (pre ++ rest) -> annotationMatch l <> Some L) ->
  JsMap.get L (scanLines (pre ++ a :: rest) m) = None.
Proof.
  induction pre as [|p pre IH]; simpl; intros m Hm Hd H.
  - rewrite scanLines_other by assumption. now rewrite scanLine_miss.
  - apply IH; trivial.
    + rewrite scanLine_other; trivial. apply H. auto.
    + intros l Hl. apply H. auto.
Qed.

(** ** Lines without [=] and [:] *)

Lemma run_Seq_none r1 r2 k s c :
  (forall s' c', isSuffix s' s -> run r2 k s' c' = None) ->
  run (Seq r1 r2) k s c = None.
Proof. intros H. rewrite run_Seq. now apply run_none. Qed.

Lemma run_Chr_absent e k s c :
  e = c_eq \/ e = c_colon -> forallb noSign s = true ->
  run (Chr (isChar e)) k s c = None.
Proof.
  intros He H. destruct s as [|x s]; simpl; trivial.
  simpl in H. apply andb_true_iff in H as [Hx _]. unfold noSign in Hx.
  apply negb_true_iff, orb_false_iff in Hx as [H1 H2].
  destruct He as [-> | ->]; [now rewrite H1 | now rewrite H2].
Qed.

Lemma wordThen_absent n e k s c :
  e = c_eq \/ e = c_colon -> forallb noSign s = true ->
  run (wordThen n e) k s c = None.
Proof.
  intros He H. unfold wordThen. apply run_Seq_none. intros s1 c1 H1.
  apply run_Seq_none. intros s2 c2 H2. apply run_Chr_absent; trivial.
  eapply forallb_suffix; [|eassumption]. eapply isSuffix_trans; eassumption.
Qed.

(** Both identifier patterns end in a sign the line must contain. *)
Lemma variableMatch_no_sign d : forallb noSign d = true -> variableMatch d = None.
Proof.
  intros H. unfold variableMatch. rewrite search_none; trivial.
  intros s' Hs. pose proof (forallb_suffix noSign Hs H) as H'.
  unfold exec_at. rewrite variableRegex_eq, run_Alt.
  rewrite wordThen_absent by auto.
  rewrite run_Seq_none; trivial. intros s1 c1 H1.
  unfold declTail. apply run_Seq_none. intros s2 c2 H2.
  apply wordThen_absent; auto.
  eapply forallb_suffix; [|eassumption]. eapply isSuffix_trans; eassumption.
Qed.

(** ** The shape of the lines the scanner looks for *)

Lemma identifier_line_match X d :
  isIdentifier X -> isDeclarationOf X d \/ isPropertyOf X d ->
  variableMatch d = Some X /\ isBlank d = false.
Proof.
  intros [NX HX] [(ws0 & kw & ws1 & ws2 & rest & H0 & Hkw & N1 & H1 & H2 & ->)
                 | (ws0 & rest & H0 & ->)].
  - split; [now apply variableMatch_declaration|].
    destruct X as [|x X]; [congruence|].
    replace (ws0 ++ kw ++ ws1 ++ (x :: X) ++ ws2 ++ c_eq :: rest)
      with ((ws0 ++ kw ++ ws1) ++ x :: (X ++ ws2 ++ c_eq :: rest))
      by (now rewrite <- !app_assoc).
    apply nonblank_with. apply word_not_space.
    simpl in HX. now apply andb_true_iff in HX as [Hx _].
  - split; [exact (variableMatch_property ws0 [] rest H0 NX HX eq_refl)|].
    destruct X as [|x X]; [congruence|]. simpl.
    apply nonblank_with. apply word_not_space.
    simpl in HX. now apply andb_true_iff in HX as [Hx _].
Qed.

(** * The scanner's claims *)

(** C1, as amended.  An annotation line labelled [L], then lines of
    nothing but whitespace, then a line [const X = ...] (or [let], [var]) or
    [X: value], possibly indented, where [X] is a non-empty run of letters,
    digits and underscores, with no annotation line labelled [L] further
    down: [scan] maps [L] to [X]. *)
Theorem scan_maps_label_to_identifier text pre a blanks d post L X :
  split_lines text = pre ++ a :: blanks ++ d :: post ->
  annotationMatch a = Some L ->
  Forall (fun l => forallb isSpace l = true) blanks ->
  isIdentifier X ->
  isDeclarationOf X d \/ isPropertyOf X d ->
  (forall l, In l (d :: post) -> annotationMatch l <> Some L) ->
  JsMap.get L (scan text) = Some X.
Proof.
  intros Hsplit Ha Hspaces HX Hd Hlater.
  pose proof (whitespace_lines_blank Hspaces) as Hblanks.
  destruct (identifier_line_match HX Hd) as [Hm Hnb].
  unfold scan. rewrite Hsplit.
  apply scanLines_last with (d := d); trivial.
  - now apply nextNonBlank_skip.
  - intros l Hl. apply in_app_or in Hl as [Hl | Hl]; [|now apply Hlater].
    rewrite Forall_forall in Hblanks.
    rewrite blank_not_annotation by now apply Hblanks. discriminate.
Qed.

Lemma scan_maps_label_to_identifier_witness :
  JsMap.get (of_string "uid") (scan text_uid_spaced) = Some (of_string "userId").
Proof.
  apply (@scan_maps_label_to_identifier text_uid_spaced [] (of_string "// @uid")
           [[]; of_string "  " ++ [9%N]]
           (of_string "const userId = 5;") [] (of_string "uid") (of_string "userId")).
  - reflexivity.
  - reflexivity.
  - repeat constructor.
  - split; [intro E; vm_compute in E; discriminate E | reflexivity].
  - left. exists [], kw_const, (of_string " "), (of_string " "), (of_string " 5;").
    repeat split; try reflexivity.
    + left. reflexivity.
    + intro E; vm_compute in E; discriminate E.
  - intros l [<- | []]. vm_compute. discriminate.
Defined.

(** C1 as stated fails for a name outside [[A-Za-z0-9_]]: below the
    annotation [// @t] the line [const $el = 1] has the form
    [const X = ...] with [X = $el], yet neither pattern matches it and the
    label is dropped; and [const clicks$ = of({a: 1})] has that form with
    [X = clicks$], yet the property pattern finds [a:] and the label is
    mapped to [a]. *)
Lemma dollar_names_are_not_captured :
  split_lines text_dollar = [of_string "// @t"; of_string "const $el = 1"] /\
  annotationMatch (of_string "// @t") = Some (of_string "t") /\
  of_string "const $el = 1"
  = kw_const ++ of_string " " ++ of_string "$el" ++ of_string " " ++ c_eq :: of_string " 1" /\
  JsMap.get (of_string "t") (scan text_dollar) = None /\
  JsMap.get (of_string "t") (scan text_dollar) <> Some (of_string "$el") /\
  of_string "const clicks$ = of({a: 1})"
  = kw_const ++ of_string " " ++ of_string "clicks$" ++ of_string " "
    ++ c_eq :: of_string " of({a: 1})" /\
  JsMap.get (of_string "t") (scan text_dollar_suffix) = Some (of_string "a") /\
  JsMap.get (of_string "t") (scan text_dollar_suffix) <> Some (of_string "clicks$").
Proof. repeat split; try reflexivity; vm_compute; discriminate. Qed.

(** C3.  When exactly two annotation lines carry the label [L] and each is
    followed by a line an identifier pattern matches, the index maps [L] to
    the identifier found after the later one. *)
Theorem scan_duplicate_label_last_wins text pre a1 mid a2 post L d1 X1 d2 X2 :
  split_lines text = pre ++ a1 :: mid ++ a2 :: post ->
  annotationMatch a1 = Some L -> annotationMatch a2 = Some L ->
  nextNonBlank (mid ++ a2 :: post) = Some d1 -> variableMatch d1 = Some X1 ->
  nextNonBlank post = Some d2 -> variableMatch d2 = Some X2 ->
  (forall l, In l (pre ++ mid ++ post) -> annotationMatch l <> Some L) ->
  JsMap.get L (scan text) = Some X2.
Proof.
  intros Hsplit H1 H2 Hd1 HX1 Hd2 HX2 Hother.
  unfold scan. rewrite Hsplit.
  replace (pre ++ a1 :: mid ++ a2 :: post) with ((pre ++ a1 :: mid) ++ a2 :: post)
    by (rewrite <- app_assoc; reflexivity).
  apply scanLines_last with (d := d2); trivial.
  intros l Hl. apply Hother. rewrite !in_app_iff. auto.
Qed.

Lemma scan_duplicate_label_last_wins_witness :
  JsMap.get (of_string "id") (scan text_twice) = Some (of_string "second").
Proof.
  apply (@scan_duplicate_label_last_wins text_twice [] (of_string "// @id")
           [of_string "const first = 1;"] (of_string "// @id")
           [of_string "  second: 2,"] (of_string "id")
           (of_string "const first = 1;") (of_string "first")
           (of_string "  second: 2,") (of_string "second")); try reflexivity.
  intros l [<- | [<- | []]]; vm_compute; discriminate.
Defined.

(** C7, as amended.  When the first non-blank line after an annotation line
    labelled [L] is a [//] comment that neither identifier pattern matches,
    and no other line carries the label [L], the index has no entry for
    [L]. *)
Theorem scan_drops_label_before_unmatched_comment text pre a blanks d post L :
  split_lines text = pre ++ a :: blanks ++ d :: post ->
  annotationMatch a = Some L ->
  Forall (fun l => isBlank l = true) blanks ->
  isBlank d = false ->
  isCommentLine d = true ->
  variableMatch d = None ->
  (forall l, In l (pre ++ d :: post) -> annotationMatch l <> Some L) ->
  JsMap.get L (scan text) = None.
Proof.
  intros Hsplit Ha Hblanks Hnb _ Hd Hother.
  unfold scan. rewrite Hsplit.
  apply scanLines_dropped; trivial.
  - right. exists d. split; trivial. now apply nextNonBlank_skip.
  - intros l Hl. rewrite !in_app_iff in Hl.
    destruct Hl as [Hl | [Hl | Hl]].
    + apply Hother. rewrite in_app_iff. auto.
    + rewrite Forall_forall in Hblanks.
      rewrite blank_not_annotation by now apply Hblanks. discriminate.
    + apply Hother. rewrite in_app_iff. auto.
Qed.

Lemma scan_drops_label_before_unmatched_comment_witness :
  JsMap.get (of_string "a") (scan text_two_labels) = None.
Proof.
  apply (@scan_drops_label_before_unmatched_comment text_two_labels []
           (of_string "// @a") [[]] (of_string "// @b") [] (of_string "a")).
  - reflexivity.
  - reflexivity.
  - repeat constructor.
  - reflexivity.
  - reflexivity.
  - apply variableMatch_no_sign. reflexivity.
  - intros l [<- | []]. vm_compute. discriminate.
Defined.

(** C7 as stated fails: the comment line [// note: hi] follows the
    annotation [// @a], the property pattern finds [note:] in it, and the
    label is kept. *)
Lemma comment_line_matches_property_pattern :
  split_lines text_note = [of_string "// @a"; of_string "// note: hi"] /\
  annotationMatch (of_string "// @a") = Some (of_string "a") /\
  isBlank (of_string "// note: hi") = false /\
  isCommentLine (of_string "// note: hi") = true /\
  variableMatch (of_string "// note: hi") = Some (of_string "note") /\
  JsMap.get (of_string "a") (scan text_note) = Some (of_string "note") /\
  JsMap.get (of_string "a") (scan text_note) <> None.
Proof. repeat split; try reflexivity. vm_compute. discriminate. Qed.

(** * The completion resolver *)

Lemma exec_atRegex_sound s c :
  exec_at atRegex s = Some c -> exists typed, s = c_at :: typed /\ c 1 = Some typed.
Proof.
  unfold exec_at, atRegex. rewrite run_Seq.
  destruct s as [|x s]; simpl run at 1; [discriminate|].
  destruct (isChar c_at x) eqn:Hx; [|discriminate].
  apply N.eqb_eq in Hx. subst x. intros H.
  apply star_sound in H as (w & s' & -> & _ & H).
  destruct s' as [|y s']; [|discriminate]. unfold accept in H.
  inversion H. exists (w ++ []). split; trivial.
  unfold setcap. simpl. rewrite Nat.sub_0_r. now rewrite firstn_all.
Qed.

Lemma atMatch_sound linePrefix typed :
  atMatch linePrefix = Some typed -> exists pre, linePrefix = pre ++ c_at :: typed.
Proof.
  unfold atMatch. destruct (search atRegex linePrefix) as [c|] eqn:E; [|discriminate].
  intros Hc. apply search_sound in E as (s' & [pre ->] & He).
  apply exec_atRegex_sound in He as (t & -> & Ht).
  exists pre. congruence.
Qed.

Lemma completionFor_replace typed position annotation variableName :
  List.length typed + 1 <= character position ->
  completionFor typed position annotation variableName
  = Some (candidate typed position (annotation, variableName)).
Proof.
  intros H. unfold completionFor, candidate, translate, TextEdit_replace, mkRange.
  apply Nat.leb_le in H as Hb. rewrite Hb.
  replace (Z.of_nat (line position) + 0 <? 0)%Z with false
    by (symmetry; apply Z.ltb_ge; lia).
  replace (Z.of_nat (character position) + (- Z.of_nat (List.length typed) - 1) <? 0)%Z
    with false by (symmetry; apply Z.ltb_ge; lia).
  simpl orb. cbv iota.
  replace (Z.to_nat (Z.of_nat (line position) + 0)) with (line position) by lia.
  replace (Z.to_nat (Z.of_nat (character position) + (- Z.of_nat (List.length typed) - 1)))
    with (character position - List.length typed - 1) by lia.
  unfold isBefore. simpl.
  rewrite Nat.eqb_refl.
  replace (character position - List.length typed - 1 <? character position)
    with true by (symmetry; apply Nat.ltb_lt; lia).
  rewrite orb_true_r. reflexivity.
Qed.

Lemma completionLoop_replace typed position entries :
  List.length typed + 1 <= character position ->
  completionLoop typed position entries
  = Some (map (candidate typed position)
            (filter (fun e => startsWith (fst e) typed) entries)).
Proof.
  intros H. induction entries as [|[a v] entries IH]; simpl; trivial.
  destruct (startsWith a typed); trivial.
  rewrite completionFor_replace, IH by assumption. reflexivity.
Qed.

(** C2.  For a file document whose line prefix up to the cursor matches the
    trigger pattern with captured text [typed], and a cursor column of at
    least [length typed + 1], the resolver returns one candidate per index
    entry whose label starts with [typed], in index order: its label is the
    entry's label, its detail ends in the identifier, and its edit replaces
    the columns from the [@] to the cursor with the identifier; for a cursor
    inside the line those columns hold [@typed]. *)
Theorem completion_candidates s doc position text typed :
  scheme (uri doc) = s_file ->
  lineAt (host s) doc position = Some text ->
  atMatch (substr0 text (character position)) = Some typed ->
  List.length typed + 1 <= character position ->
  provideCompletionItems s doc position
  = Some (map (candidate typed position)
            (filter (fun e => startsWith (fst e) typed) (indexOf s doc)))
  /\ (character position <= List.length text ->
      span text (character position - List.length typed - 1) (character position)
      = c_at :: typed).
Proof.
  intros Hscheme Hline Hat Hcol. split.
  - unfold provideCompletionItems. rewrite Hscheme, str_eqb_refl. simpl negb.
    cbv iota. rewrite Hline, Hat.
    now apply completionLoop_replace.
  - intros Hin. apply atMatch_sound in Hat as [pre Hpre].
    unfold substr0 in Hpre. unfold span.
    assert (Hlen : List.length pre = character position - List.length typed - 1).
    { apply (f_equal (@List.length char)) in Hpre.
      rewrite length_firstn, length_app in Hpre. simpl in Hpre. lia. }
    assert (Htext : text = pre ++ (c_at :: typed) ++ skipn (character position) text).
    { rewrite app_assoc, <- Hpre. symmetry. apply firstn_skipn. }
    remember (skipn (character position) text) as rest eqn:Hrest. clear Hrest.
    rewrite Htext, <- Hlen.
    rewrite skipn_app, skipn_all, Nat.sub_diag. simpl skipn. simpl app at 1.
    replace (character position - List.length pre)
      with (List.length (c_at :: typed) + 0) by (simpl; lia).
    change (c_at :: typed ++ rest) with ((c_at :: typed) ++ rest).
    rewrite firstn_app_2. simpl. now rewrite app_nil_r.
Qed.

(** The index [{foo: userId, bar: count}] and the typed prefix [f]: one
    candidate, labelled [foo], whose edit puts [userId] over [@f]. *)
Lemma completion_candidates_witness :
  provideCompletionItems ext_foo_bar doc_a {| line := 0; character := 7 |}
  = Some [ {| label := of_string "foo"; kind := Variable_;
              detail := detailPrefix ++ of_string "userId";
              sortText := [0%N]; preselect := true;
              filterText := of_string "@foo";
              textEdit :=
                {| range := {| rangeStart := {| line := 0; character := 5 |};
                               rangeEnd := {| line := 0; character := 7 |} |};
                   newText := of_string "userId" |} |} ]
  /\ span (of_string "send(@f") 5 7 = of_string "@f".
Proof.
  assert (Hcol : List.length (of_string "f") + 1 <= 7) by (vm_compute; lia).
  destruct (@completion_candidates ext_foo_bar doc_a {| line := 0; character := 7 |}
              (of_string "send(@f") (of_string "f") eq_refl eq_refl eq_refl Hcol)
    as [Hitems Hspan].
  split.
  - exact Hitems.
  - apply Hspan. vm_compute. lia.
Defined.

(** * An annotation of nothing but whitespace *)

(** C10.  The text [// @ ] (one space after the [@]) above [const x = 1;]
    scans to an index that maps the empty label to [x]; with that index in
    the store, a bare [@] before the cursor gets a candidate whose label is
    empty and whose edit puts [x] over the [@]. *)
Theorem blank_label_is_indexed_and_offered :
  scan text_blank_label = [([], of_string "x")] /\
  let s := state (snd (activate host_blank_label 0)) in
  indexOf s doc_a = [([], of_string "x")] /\
  provideCompletionItems s doc_a {| line := 2; character := 1 |}
  = Some [ {| label := []; kind := Variable_;
              detail := detailPrefix ++ of_string "x";
              sortText := [0%N]; preselect := true;
              filterText := of_string "@";
              textEdit :=
                {| range := {| rangeStart := {| line := 2; character := 0 |};
                               rangeEnd := {| line := 2; character := 1 |} |};
                   newText := of_string "x" |} |} ].
Proof. repeat split; vm_compute; reflexivity. Qed.

(** * The debouncer *)

Section DebounceProperties.

Variables (S A : Type) (action : A -> S -> S).

Lemma elapse_not_due T (w : Loop S) tm :
  pending w = [tm] -> T < due tm ->
  elapse T w = {| now := Nat.max (now w) T; nextId := nextId w;
                  pending := [tm]; state := state w |}.
Proof.
  intros Hp Hlt. unfold elapse. rewrite Hp. simpl. unfold isDue.
  replace (due tm <=? T) with false by (symmetry; apply Nat.leb_gt; lia).
  reflexivity.
Qed.

Lemma elapse_due T (w : Loop S) tm :
  pending w = [tm] -> due tm <= T ->
  elapse T w = {| now := Nat.max (now w) T; nextId := nextId w;
                  pending := []; state := Timers.callback tm (state w) |}.
Proof.
  intros Hp Hle. unfold elapse. rewrite Hp. simpl. unfold isDue.
  replace (due tm <=? T) with true by (symmetry; apply Nat.leb_le; lia).
  reflexivity.
Qed.

Lemma debounce_first delay t a (w0 : Loop S) :
  pending w0 = [] -> now w0 <= t ->
  armed action delay t a (state w0) (debounce action delay a (None, elapse t w0)).
Proof.
  intros Hp Hnow. exists (nextId w0). unfold debounce, elapse. rewrite Hp. simpl.
  repeat split; trivial; try lia.
  replace (Nat.max (now w0) t) with t by lia. reflexivity.
Qed.

(** A call before the delay has run out clears the pending timer and sets
    a new one with the new arguments. *)
Lemma debounce_restart delay t a s0 d t' b :
  armed action delay t a s0 d -> t <= t' < t + delay ->
  armed action delay t' b s0 (debounce action delay b (fst d, elapse t' (snd d))).
Proof.
  intros (id & Hid & Hnow & Hst & Hp) Ht.
  rewrite (elapse_not_due _ Hp) by (simpl; lia).
  exists (nextId (snd d)). rewrite Hid. unfold debounce. simpl.
  rewrite Nat.eqb_refl. simpl.
  repeat split; trivial.
  - lia.
  - replace (Nat.max (now (snd d)) t') with t' by lia. reflexivity.
Qed.

Lemma armed_fires delay t a s0 d T :
  armed action delay t a s0 d ->
  (T < t + delay ->
   state (elapse T (snd d)) = s0 /\
   map (@due S) (pending (elapse T (snd d))) = [t + delay]) /\
  (t + delay <= T ->
   state (elapse T (snd d)) = action a s0 /\ pending (elapse T (snd d)) = []).
Proof.
  intros (id & Hid & Hnow & Hst & Hp). split; intros HT.
  - rewrite (elapse_not_due _ Hp) by (simpl; lia). simpl. auto.
  - rewrite (elapse_due _ Hp) by (simpl; lia). simpl. now rewrite Hst.
Qed.


End DebounceProperties.


(** * The indexing controller *)

(** ** Documents outside the workspace *)

Lemma parseDocument_outside doc s :
  outsideRoots (workspaceFolders (host s)) doc = true -> parseDocument doc s = s.
Proof.
  unfold parseDocument, outsideRoots. intros H.
  destruct (negb (str_eqb (scheme (uri doc)) s_file)); trivial.
  destruct (workspaceFolders (host s)); trivial. now rewrite H.
Qed.

Section OneDocument.

Variable doc : TextDocument.

Lemma outsideRoots_sameFile folders d :
  fsPath (uri d) = fsPath (uri doc) -> outsideRoots folders d = outsideRoots folders doc.
Proof.
  intros E. unfold outsideRoots, isInWorkspace. destruct folders; trivial.
  now rewrite E.
Qed.

Lemma parseDocument_unindexed d s :
  sameFile doc d -> unindexed doc s -> unindexed doc (parseDocument d s).
Proof.
  intros Hd [Hout Hget].
  destruct (str_eq_dec (toString (uri d)) (toString (uri doc))) as [E | N].
  - rewrite parseDocument_outside; [now split|].
    rewrite outsideRoots_sameFile by (apply Hd, E). assumption.
  - pose proof (conj Hout Hget : unindexed doc s) as Hs.
    unfold parseDocument.
    destruct (negb (str_eqb (scheme (uri d)) s_file)); [exact Hs|].
    destruct (workspaceFolders (host s)) eqn:Ef; [|exact Hs].
    destruct (negb (isInWorkspace l d)); [exact Hs|].
    destruct (isExcluded d); [exact Hs|].
    split; simpl; [apply Hs |].
    now rewrite get_set_other.
Qed.

Lemma Forall_insertTimer (P : Timer Ext -> Prop) t l :
  P t -> Forall P l -> Forall P (insertTimer t l).
Proof.
  intros Ht. induction 1 as [|u l Hu Hl IH]; simpl.
  - auto.
  - destruct (fires_before t u); auto.
Qed.

Lemma Forall_fireOrder (P : Timer Ext -> Prop) l :
  Forall P l -> Forall P (fireOrder l).
Proof.
  induction 1; simpl; [constructor|]. now apply Forall_insertTimer.
Qed.

Lemma Forall_filter (B : Type) (P : B -> Prop) f l :
  Forall P l -> Forall P (filter f l).
Proof.
  induction 1; simpl; [constructor|]. destruct (f x); auto.
Qed.

Lemma run_callbacks_unindexed l : forall s,
  Forall (keepsUnindexed doc) l -> unindexed doc s ->
  unindexed doc (fold_left (fun s t => callback t s) l s).
Proof.
  induction l as [|t l IH]; simpl; intros s H Hs; trivial.
  inversion H; subst. apply IH; auto.
Qed.

Lemma elapse_invariant t rt :
  invariant doc rt -> invariant doc (fst rt, elapse t (snd rt)).
Proof.
  intros [Hs Hp]. split; simpl.
  - apply run_callbacks_unindexed; trivial.
    now apply Forall_fireOrder, Forall_filter.
  - now apply Forall_filter.
Qed.

Lemma trigger_invariant d rt :
  sameFile doc d -> invariant doc rt -> invariant doc (parseDocumentWithDebounce2 d rt).
Proof.
  intros Hd [Hs Hp]. destruct rt as [timer w].
  unfold parseDocumentWithDebounce2, debounce. simpl in *.
  assert (Hnew : forall id t, Forall (keepsUnindexed doc)
            [{| tid := id; due := t; callback := fun s => parseDocument d s |}]).
  { intros id t. constructor; [|constructor].
    intros s. now apply parseDocument_unindexed. }
  destruct timer as [id|]; simpl; (split; [assumption|]);
    apply Forall_app; split; trivial.
  now apply Forall_filter.
Qed.

Lemma triggers_invariant editors : forall rt,
  Forall (fun e => sameFile doc (document e)) editors -> invariant doc rt ->
  invariant doc
    (fold_left (fun r e => parseDocumentWithDebounce2 (document e) r) editors rt).
Proof.
  induction editors as [|e editors IH]; simpl; intros rt H Hrt; trivial.
  inversion H; subst. apply IH; trivial. now apply trigger_invariant.
Qed.

Lemma updHost_invariant f rt :
  (forall h, workspaceFolders (f h) = workspaceFolders h) ->
  invariant doc rt -> invariant doc (updHost f rt).
Proof.
  intros Hf [[Hout Hget] Hp]. split; trivial. split; simpl; trivial.
  now rewrite Hf.
Qed.

Lemma step_invariant ev rt :
  eventRespects doc ev -> invariant doc rt -> invariant doc (step ev rt).
Proof.
  destruct ev as [editors | d b | folders | t]; simpl; intros Hev Hrt.
  - unfold onDidChangeVisibleTextEditors.
    destruct (0 <? List.length editors).
    + apply triggers_invariant; trivial; now apply updHost_invariant.
    + now apply updHost_invariant.
  - unfold onDidChangeTextDocument.
    match goal with |- context [if ?c then _ else _] => destruct c end.
    + apply trigger_invariant; trivial; now apply updHost_invariant.
    + now apply updHost_invariant.
  - destruct Hrt as [[Hout Hget] Hp]. split; trivial. now split.
  - now apply elapse_invariant.
Qed.

Lemma steps_invariant evs : forall rt,
  Forall (eventRespects doc) evs -> invariant doc rt -> invariant doc (steps evs rt).
Proof.
  unfold steps. induction evs as [|ev evs IH]; simpl; intros rt H Hrt; trivial.
  inversion H; subst. apply IH; trivial. now apply step_invariant.
Qed.

Lemma scans_unindexed editors : forall s,
  Forall (fun e => sameFile doc (document e)) editors -> unindexed doc s ->
  unindexed doc (fold_left (fun s e => parseDocument (document e) s) editors s).
Proof.
  induction editors as [|e editors IH]; simpl; intros s H Hs; trivial.
  inversion H; subst. apply IH; trivial. now apply parseDocument_unindexed.
Qed.

Lemma activate_invariant h t0 :
  outsideRoots (workspaceFolders h) doc = true ->
  Forall (fun e => sameFile doc (document e)) (visibleTextEditors h) ->
  invariant doc (activate h t0).
Proof.
  intros Hout Hvis. split; simpl; [|constructor].
  apply scans_unindexed; trivial. now split.
Qed.

End OneDocument.

(** Without an entry in the store the resolver has nothing to offer. *)
Lemma provideCompletionItems_absent s doc position :
  JsMap.get (toString (uri doc)) (documentAnnotations s) = None ->
  lineAt (host s) doc position <> None ->
  provideCompletionItems s doc position = Some [].
Proof.
  intros Hget Hline. unfold provideCompletionItems.
  destruct (negb (str_eqb (scheme (uri doc)) s_file)); trivial.
  destruct (lineAt (host s) doc position); [|congruence].
  destruct (atMatch _); trivial. now rewrite Hget.
Qed.

(** X20.  A document whose path starts with the path of no workspace
    folder (or when there are no workspace folders), from activation through
    any run of host events whose folder changes keep it so: scanning it
    changes nothing, the store has no entry for it, and every completion
    request on one of its lines gets the empty list, whatever its text is.
    The documents the host hands over under its URI string carry its file
    path. *)
Theorem document_without_root_prefix_never_indexed h t0 evs doc :
  outsideRoots (workspaceFolders h) doc = true ->
  Forall (fun e => sameFile doc (document e)) (visibleTextEditors h) ->
  Forall (eventRespects doc) evs ->
  let s := state (snd (steps evs (activate h t0))) in
  parseDocument doc s = s /\
  JsMap.get (toString (uri doc)) (documentAnnotations s) = None /\
  (forall position,
     lineAt (host s) doc position <> None ->
     provideCompletionItems s doc position = Some []).
Proof.
  intros Hout Hvis Hevs s.
  destruct (steps_invariant Hevs (@activate_invariant doc h t0 Hout Hvis))
    as [[Ho Hg] _].
  fold s in Ho, Hg. repeat split; trivial.
  - now apply parseDocument_outside.
  - intros position Hline. now apply provideCompletionItems_absent.
Qed.

Lemma document_without_root_prefix_never_indexed_witness :
  let s := state (snd (steps events_out (activate host_out 0))) in
  JsMap.get (toString (uri doc_out)) (documentAnnotations s) = None /\
  provideCompletionItems s doc_out {| line := 2; character := 1 |} = Some [].
Proof.
  assert (Ha : sameFile doc_out doc_a)
    by (intros E; vm_compute in E; discriminate E).
  assert (Ho : sameFile doc_out doc_out) by (intros _; reflexivity).
  assert (Hvis : Forall (fun e => sameFile doc_out (document e))
                   (visibleTextEditors host_out))
    by (repeat constructor; assumption).
  assert (Hevs : Forall (eventRespects doc_out) events_out)
    by (repeat constructor; assumption).
  destruct (@document_without_root_prefix_never_indexed host_out 0 events_out doc_out
              eq_refl Hvis Hevs) as (_ & Hget & Hcompl).
  intros s. split.
  - exact Hget.
  - apply Hcompl. vm_compute. discriminate.
Defined.

(** C8 on the code.  [/pq/a.ts] does not lie under the one workspace root
    [/p]: its directory [pq] is a sibling of the root.  Line 35 compares
    the two paths as strings, and [/p] is a prefix of [/pq/a.ts]; so the
    document counts as in the workspace, it is scanned at activation, the
    store holds its index, and a completion request in it is answered from
    that index.  Also, the index of [/p/a.ts], made while [/p] was a root,
    is still in the store and still offered once the only root is [/q]. *)
Lemma prefix_test_admits_sibling_directory :
  splitOn c_slash (fsPath root_p) = [[]; of_string "p"] /\
  splitOn c_slash (fsPath (uri doc_pq)) = [[]; of_string "pq"; of_string "a.ts"] /\
  underRoot (fsPath root_p) (fsPath (uri doc_pq)) = false /\
  isInWorkspace [root_p] doc_pq = true /\
  (let s := state (snd (activate host_pq 0)) in
   JsMap.get (toString (uri doc_pq)) (documentAnnotations s) = Some index_uid /\
   provideCompletionItems s doc_pq {| line := 2; character := 2 |}
   = Some [candidate (of_string "u") {| line := 2; character := 2 |}
             (of_string "uid", of_string "userId")]) /\
  (let s := state (snd (steps [WorkspaceFoldersChanged (Some [fileUri "/q"])]
                          (activate (host ext_typing) 0))) in
   workspaceFolders (host s) = Some [fileUri "/q"] /\
   underRoot (of_string "/q") (fsPath (uri doc_a)) = false /\
   isInWorkspace [fileUri "/q"] doc_a = false /\
   JsMap.get (toString (uri doc_a)) (documentAnnotations s) = Some index_uid /\
   provideCompletionItems s doc_a {| line := 2; character := 2 |}
   = Some [candidate (of_string "u") {| line := 2; character := 2 |}
             (of_string "uid", of_string "userId")]).
Proof. repeat split; vm_compute; reflexivity. Qed.

(** ** Text changes *)

(** The wrapper with delay 1000 never sets a timer. *)
Lemma parseDocumentWithDebounce_idle doc rt : parseDocumentWithDebounce doc rt = rt.
Proof. reflexivity. Qed.

(** C5, as amended.  A text change in a visible document goes through the
    shared wrapper [parseDocumentWithDebounce2]: the wrapper's earlier timer
    is cleared and one timer is set, due 300 after the event, that scans the
    changed document. *)
Theorem text_change_requests_scan_after_300 rt doc b :
  isVisible (host (state (snd rt))) doc = true ->
  let rt' := step (TextChanged doc b) rt in
  fst rt' = Some (nextId (snd rt)) /\
  pending (snd rt')
  = match fst rt with
    | Some id => filter (fun t => negb (Nat.eqb (tid t) id)) (pending (snd rt))
    | None => pending (snd rt)
    end ++ [{| tid := nextId (snd rt); due := now (snd rt) + 300;
               callback := parseDocument doc |}].
Proof.
  intros Hvis. simpl. unfold onDidChangeTextDocument.
  change (host (state (snd (updHost (setBuffer (toString (uri doc)) b) rt))))
    with (setBuffer (toString (uri doc)) b (host (state (snd rt)))).
  change (isVisible (setBuffer (toString (uri doc)) b (host (state (snd rt)))) doc)
    with (isVisible (host (state (snd rt))) doc).
  rewrite Hvis. destruct rt as [[id|] w]; split; reflexivity.
Qed.

Lemma text_change_requests_scan_after_300_witness :
  fst rt_edit = Some 0 /\
  pending (snd rt_edit) = [{| tid := 0; due := 307; callback := parseDocument doc_a |}].
Proof.
  exact (@text_change_requests_scan_after_300 (activate host_edit 7) doc_a buffer_uid
           eq_refl).
Defined.

(** C5 as stated fails: after a text change at time 7 in a visible
    document the one pending timer is due at 307, not at 1007, and the scan
    of the new text has run once the clock shows 307. *)
Lemma text_change_window_is_not_1000 :
  isVisible host_edit doc_a = true /\
  map (@due Ext) (pending (snd rt_edit)) = [7 + 300] /\
  map (@due Ext) (pending (snd rt_edit)) <> [7 + 1000] /\
  indexOf (state (snd (step (Elapsed 306) rt_edit))) doc_a = [] /\
  indexOf (state (snd (step (Elapsed 307) rt_edit))) doc_a = index_uid.
Proof. repeat split; try reflexivity. vm_compute. discriminate. Qed.

(** ** One wrapper for all documents *)

(** C6 on the code.  Both documents are visible and inside the workspace.
    A text change in [a.ts] at time 0 sets the timer for its scan; a text
    change in [b.ts] at time 100 clears that timer; however long one waits,
    only [b.ts] is scanned and the index of [a.ts] stays the one of its old
    text.  Likewise, when two editors become visible together only the
    second document is scanned. *)
Lemma shared_wrapper_cancels_other_document :
  let rt1 := step (TextChanged doc_a buffer_uid) (activate host_two 0) in
  let rt3 := steps events_two (activate host_two 0) in
  let s := state (snd (step (Elapsed 5000) rt3)) in
  map (fun t => (tid t, due t)) (pending (snd rt1)) = [(0, 300)] /\
  map (fun t => (tid t, due t)) (pending (snd rt3)) = [(1, 400)] /\
  pending (snd (step (Elapsed 5000) rt3)) = [] /\
  getText (host s) doc_a = of_string "// @uid" ++ [c_lf] ++ of_string "const userId = 5;" /\
  indexOf s doc_a = [] /\
  indexOf s doc_b = index_n /\
  let s' := state (snd (steps [VisibleEditorsChanged
                                 [{| document := doc_a |}; {| document := doc_b |}];
                               Elapsed 5000] (activate host_hidden 0))) in
  JsMap.get (toString (uri doc_a)) (documentAnnotations s') = None /\
  JsMap.get (toString (uri doc_b)) (documentAnnotations s') = Some index_n.
Proof. repeat split; vm_compute; reflexivity. Qed.

(** ** Excluded directories *)

(** C9 on the code.  No segment of [/p/my.vscode-theme/a.ts] is [.vscode]
    or [node_modules], yet the substring test excludes the document: it is
    not scanned at activation, while [/p/a.ts] with the same text is. *)
Lemma substring_test_excludes_longer_segment :
  splitOn c_slash (fsPath (uri doc_theme))
  = [[]; of_string "p"; of_string "my.vscode-theme"; of_string "a.ts"] /\
  hasSegment (fsPath (uri doc_theme)) s_vscode = false /\
  hasSegment (fsPath (uri doc_theme)) s_node_modules = false /\
  isExcluded doc_theme = true /\
  let s := state (snd (activate host_theme 0)) in
  JsMap.get (toString (uri doc_theme)) (documentAnnotations s) = None /\
  JsMap.get (toString (uri doc_a)) (documentAnnotations s) = Some index_uid.
Proof. repeat split; vm_compute; reflexivity. Qed.

(** * Further facts about the embedding *)

(** ** Capture groups of a successful match are defined *)

Lemma run_Chr_sound p k s c r :
  run (Chr p) k s c = Some r ->
  exists x s', s = x :: s' /\ p x = true /\ k s' c = Some r.
Proof.
  destruct s as [|x s]; simpl; [discriminate|].
  destruct (p x) eqn:E; [|discriminate]. intros H. now exists x, s.
Qed.

Lemma run_Plus_sound p k s c r :
  run (Plus p) k s c = Some r ->
  exists x w s', s = x :: w ++ s' /\ p x = true /\ forallb p w = true /\
                 k s' c = Some r.
Proof.
  destruct s as [|x s]; simpl; [discriminate|].
  destruct (p x) eqn:E; [|discriminate]. intros H.
  apply star_sound in H as (w & s' & -> & Hw & Hk). now exists x, w, s'.
Qed.

Lemma wordThen_sound n e s c r :
  run (wordThen n e) accept s c = Some r ->
  exists x w, isWord x = true /\ forallb isWord w = true /\ r = setcap n (x :: w) c.
Proof.
  unfold wordThen. rewrite run_Seq, run_Group. intros H.
  apply run_Plus_sound in H as (x & w & s' & -> & Hx & Hw & H).
  rewrite run_Seq in H.
  change (run (Star isSpace) ?k s' ?c') with (star isSpace k s' c') in H.
  apply star_sound in H as (ws & s2 & -> & _ & H).
  apply run_Chr_sound in H as (y & s3 & -> & _ & H).
  unfold accept in H.
  change (x :: w ++ ws ++ y :: s3) with ((x :: w) ++ ws ++ y :: s3) in H.
  rewrite firstn_length_diff in H.
  exists x, w. repeat split; trivial. congruence.
Qed.

Lemma declTail_sound s c r :
  run declTail accept s c = Some r ->
  exists x w, isWord x = true /\ forallb isWord w = true /\ r = setcap 1 (x :: w) c.
Proof.
  unfold declTail. rewrite run_Seq. intros H.
  apply run_Plus_sound in H as (y & ws & s' & -> & _ & _ & H).
  now apply wordThen_sound in H.
Qed.

Lemma run_Lit_sound l k s c r :
  run (Lit l) k s c = Some r -> k (skipn (List.length l) s) c = Some r.
Proof. rewrite run_Lit. now destruct (startsWith s l). Qed.

Lemma orElse_Some a b r :
  orElse a b = Some r -> a = Some r \/ (a = None /\ b = Some r).
Proof. destruct a; simpl; auto. Qed.

(** [variableMatch[1] || variableMatch[2]] is never [undefined]. *)
Lemma variableRegex_names s c :
  search variableRegex s = Some c -> exists v, v <> [] /\ jsOr (c 1) (c 2) = Some v.
Proof.
  intros H. apply search_sound in H as (s' & _ & H).
  unfold exec_at in H. rewrite variableRegex_eq, run_Alt in H.
  apply orElse_Some in H as [H | [_ H]].
  - rewrite run_Seq in H. unfold keywords in H. rewrite !run_Alt in H.
    assert (exists u, run declTail accept u nocaps = Some c) as [u Hu].
    { apply orElse_Some in H as [H | [_ H]];
        [eexists; eapply run_Lit_sound, H|].
      apply orElse_Some in H as [H | [_ H]];
        eexists; eapply run_Lit_sound, H. }
    apply declTail_sound in Hu as (x & w & _ & _ & ->).
    exists (x :: w). split; [discriminate|reflexivity].
  - apply wordThen_sound in H as (x & w & _ & _ & ->).
    exists (x :: w). split; [discriminate|reflexivity].
Qed.

(** [annotationMatch[1]] is never [undefined]. *)
Lemma annotationRegex_group s c :
  search annotationRegex s = Some c -> exists g, g <> [] /\ c 1 = Some g.
Proof.
  intros H. apply search_sound in H as (s' & _ & H).
  unfold exec_at, annotationRegex in H. rewrite !run_Seq in H.
  apply run_Chr_sound in H as (x1 & s1 & -> & _ & H).
  apply run_Chr_sound in H as (x2 & s2 & -> & _ & H).
  change (run (Star isSpace) ?k s2 ?c') with (star isSpace k s2 c') in H.
  apply star_sound in H as (w1 & s3 & -> & _ & H).
  apply run_Chr_sound in H as (x3 & s4 & -> & _ & H).
  change (run (Star isSpace) ?k s4 ?c') with (star isSpace k s4 c') in H.
  apply star_sound in H as (w2 & s5 & -> & _ & H).
  change (run (Group 1 (Plus isDot)) accept s5 nocaps = Some c) in H.
  rewrite run_Group in H.
  apply run_Plus_sound in H as (x & w & s6 & -> & _ & _ & H).
  unfold accept in H.
  change (x :: w ++ s6) with ((x :: w) ++ s6) in H.
  rewrite firstn_length_diff in H.
  exists (x :: w). split; [discriminate|].
  injection H as <-. reflexivity.
Qed.

(** [atMatch[1]] is never [undefined]. *)
Lemma atRegex_group s c : search atRegex s = Some c -> exists g, c 1 = Some g.
Proof.
  intros H. apply search_sound in H as (s' & _ & H).
  apply exec_atRegex_sound in H as (t & _ & Ht). now exists t.
Qed.

(** ** Whole segments are substrings *)

Lemma includes_iff s p : includes s p = true <-> exists a b, s = a ++ p ++ b.
Proof.
  split.
  - induction s as [|x s IH]; simpl; intros H.
    + rewrite orb_false_r in H. apply startsWith_iff in H as [t Ht].
      now exists [], t.
    + apply orb_true_iff in H as [H | H].
      * apply startsWith_iff in H as [t Ht]. now exists [], t.
      * destruct (IH H) as (a & b & ->). now exists (x :: a), b.
  - intros (a & b & ->). induction a as [|x a IH]; simpl.
    + assert (H : startsWith (p ++ b) p = true) by (apply startsWith_iff; eauto).
      destruct (p ++ b); simpl; now rewrite H.
    + rewrite IH. apply orb_true_r.
Qed.

Lemma splitOn_first sep s :
  exists l r b, splitOn sep s = l :: r /\ s = l ++ b.
Proof.
  induction s as [|x s (l & r & b & E & Hs)]; simpl.
  - now exists [], [], [].
  - destruct (x =? sep)%N.
    + now exists [], (splitOn sep s), (x :: s).
    + rewrite E. simpl. exists (x :: l), r, b. now rewrite Hs at 1.
Qed.

Lemma splitOn_segment sep s seg :
  In seg (splitOn sep s) -> exists a b, s = a ++ seg ++ b.
Proof.
  induction s as [|x s IH]; simpl.
  - intros [<- | []]. now exists [], [].
  - destruct (x =? sep)%N.
    + intros [<- | H].
      * now exists [], (x :: s).
      * destruct (IH H) as (a & b & ->). now exists (x :: a), b.
    + destruct (splitOn_first sep s) as (l & r & b & E & Hs).
      rewrite E in *. simpl. intros [<- | H].
      * exists [], b. simpl. now rewrite Hs at 1.
      * destruct (IH (or_intror H)) as (a & b' & ->). now exists (x :: a), b'.
Qed.

(** The half of the segment reading that the code does implement: a
    document below a directory named [node_modules] or [.vscode] is
    excluded. *)
Lemma segment_is_excluded doc :
  hasSegment (fsPath (uri doc)) s_node_modules = true \/
  hasSegment (fsPath (uri doc)) s_vscode = true ->
  isExcluded doc = true.
Proof.
  unfold hasSegment, isExcluded. intros H. apply orb_true_iff.
  destruct H as [H | H]; [left | right];
    apply existsb_exists in H as (seg & Hin & E);
    apply str_eqb_eq in E; subst seg;
    apply includes_iff; now apply splitOn_segment with (sep := c_slash).
Qed.

(** ** Any two documents share the one timer *)

Lemma shared_wrapper_restart t docA s0 rt t' docB :
  armed parseDocument 300 t docA s0 rt -> t <= t' < t + 300 ->
  armed parseDocument 300 t' docB s0
    (parseDocumentWithDebounce2 docB (fst rt, elapse t' (snd rt))).
Proof. intros H Ht. exact (debounce_restart docB H Ht). Qed.

(** * Further properties of the code *)

(** ** Lines *)

Lemma split_lines_single l : forallb noEolChar l = true -> split_lines l = [l].
Proof.
  induction l as [|x l IH]; simpl; intros H; trivial.
  apply andb_true_iff in H as [Hx H]. unfold noEolChar in Hx.
  apply negb_true_iff, orb_false_iff in Hx as [Hlf Hcr].
  rewrite Hlf. destruct l as [|y l]; trivial.
  rewrite Hcr. simpl andb. cbv iota. rewrite (IH H). reflexivity.
Qed.

Lemma split_lines_break l eol rest :
  forallb noEolChar l = true -> eol = [c_lf] \/ eol = [c_cr; c_lf] ->
  split_lines (l ++ eol ++ rest) = l :: split_lines rest.
Proof.
  intros H He. induction l as [|x l IH].
  - destruct He as [-> | ->]; reflexivity.
  - simpl in H. apply andb_true_iff in H as [Hx H]. unfold noEolChar in Hx.
    apply negb_true_iff, orb_false_iff in Hx as [Hlf Hcr].
    specialize (IH H). simpl app. simpl split_lines. rewrite Hlf.
    destruct (l ++ eol ++ rest) as [|y t] eqn:E.
    + destruct l; destruct He as [-> | ->]; discriminate.
    + rewrite Hcr. simpl andb. cbv iota. rewrite IH. reflexivity.
Qed.

Lemma split_lines_join_lines eol ls :
  ls <> [] -> eol = [c_lf] \/ eol = [c_cr; c_lf] ->
  Forall (fun l => forallb noEolChar l = true) ls ->
  split_lines (join eol ls) = ls.
Proof.
  intros N He H. induction H as [|l ls Hl H IH]; [congruence|].
  destruct ls as [|l2 ls].
  - simpl. now apply split_lines_single.
  - change (join eol (l :: l2 :: ls)) with (l ++ eol ++ join eol (l2 :: ls)).
    rewrite split_lines_break by assumption. rewrite IH; [reflexivity|discriminate].
Qed.

(** X1.  For a buffer of at least one line, joined by LF or CRLF, whose
    lines hold no line break, the lines the scanner splits the text into
    are the lines [lineAt] hands out. *)
Theorem scanner_lines_are_host_lines h doc :
  wellFormedBuffer (buffers h (toString (uri doc))) ->
  split_lines (getText h doc) = bufLines (buffers h (toString (uri doc))) /\
  forall position,
    lineAt h doc position = nth_error (split_lines (getText h doc)) (line position).
Proof.
  intros (N & He & H).
  assert (E : split_lines (getText h doc) = bufLines (buffers h (toString (uri doc))))
    by (unfold getText; now apply split_lines_join_lines).
  split; trivial. intros position. unfold lineAt. now rewrite E.
Qed.

Lemma scanner_lines_are_host_lines_witness :
  split_lines (getText (host ext_typing) doc_a)
  = [of_string "// @uid"; of_string "const userId = 5;"; of_string "@u"].
Proof.
  assert (W : wellFormedBuffer (buffers (host ext_typing) (toString (uri doc_a)))).
  { split; [intro E; vm_compute in E; discriminate E|].
    split; [left; reflexivity|]. repeat constructor. }
  destruct (@scanner_lines_are_host_lines (host ext_typing) doc_a W) as [E _].
  exact E.
Defined.

(** ** Trimming *)

Lemma dropWhile_split p s :
  exists w, forallb p w = true /\ s = w ++ dropWhile p s.
Proof.
  induction s as [|x s (w & Hw & E)]; simpl.
  - now exists [].
  - destruct (p x) eqn:Hx.
    + exists (x :: w). simpl. rewrite Hx, Hw. split; trivial. now rewrite <- E.
    + now exists [].
Qed.

Lemma dropWhile_id p s : stopsAt p s -> dropWhile p s = s.
Proof. destruct s as [|x s]; simpl; trivial. now intros ->. Qed.

Lemma dropWhile_spaces p w s :
  forallb p w = true -> dropWhile p (w ++ s) = dropWhile p s.
Proof.
  induction w as [|x w IH]; simpl; intros H; trivial.
  apply andb_true_iff in H as [-> H]. now apply IH.
Qed.

Lemma forallb_dropWhile (q p : char -> bool) s :
  forallb q s = true -> forallb q (dropWhile p s) = true.
Proof.
  destruct (dropWhile_split p s) as (w & _ & E). intros H.
  rewrite E, forallb_app in H. now apply andb_true_iff in H as [_ H].
Qed.

Lemma forallb_trim q s : forallb q s = true -> forallb q (trim s) = true.
Proof.
  intros H. unfold trim, trimEnd, trimStart.
  rewrite forallb_rev. apply forallb_dropWhile. rewrite forallb_rev.
  now apply forallb_dropWhile.
Qed.

(** What [trim] returns starts and ends outside the whitespace. *)
Lemma trim_stops s : stopsAt isSpace (trim s) /\ stopsAt isSpace (rev (trim s)).
Proof.
  unfold trim, trimEnd, trimStart.
  pose proof (dropWhile_stops isSpace s) as Hu.
  set (u := dropWhile isSpace s) in *.
  destruct (dropWhile_split isSpace (rev u)) as (w & Hw & E).
  pose proof (dropWhile_stops isSpace (rev u)) as Hv.
  set (v := dropWhile isSpace (rev u)) in *.
  split; [|now rewrite rev_involutive].
  apply (f_equal (@rev char)) in E. rewrite rev_involutive, rev_app_distr in E.
  destruct (rev v) as [|x t]; simpl; trivial.
  rewrite E in Hu. exact Hu.
Qed.

Lemma trim_fixed s :
  stopsAt isSpace s -> stopsAt isSpace (rev s) -> trim s = s.
Proof.
  intros H1 H2. unfold trim, trimEnd, trimStart.
  rewrite (dropWhile_id _ _ H1), (dropWhile_id _ _ H2). apply rev_involutive.
Qed.

Lemma trim_idempotent s : trim (trim s) = trim s.
Proof. destruct (trim_stops s). now apply trim_fixed. Qed.

Lemma trim_trailing L ws :
  L <> [] -> trim L = L -> forallb isSpace ws = true -> trim (L ++ ws) = L.
Proof.
  intros N E Hws.
  destruct (trim_stops L) as [H1 H2]. rewrite E in H1, H2.
  unfold trim, trimEnd, trimStart.
  assert (H3 : stopsAt isSpace (L ++ ws)) by (destruct L; [congruence | exact H1]).
  rewrite (dropWhile_id _ _ H3).
  rewrite rev_app_distr, dropWhile_spaces by now rewrite forallb_rev.
  rewrite (dropWhile_id _ _ H2). apply rev_involutive.
Qed.

(** ** Index entries *)

Lemma set_In (V : Type) k (v : V) k' v' m :
  In (k', v') (JsMap.set k v m) -> (k' = k /\ v' = v) \/ In (k', v') m.
Proof.
  induction m as [|[k0 v0] m IH]; simpl.
  - intros [E | []]. inversion E. auto.
  - destruct (str_eqb k0 k) eqn:Ek; simpl.
    + apply str_eqb_eq in Ek. subst k0. intros [E | H]; [inversion E|]; auto.
    + intros [E | H]; auto. destruct (IH H); auto.
Qed.

Lemma set_key_In (V : Type) k (v : V) k' m :
  In k' (map fst (JsMap.set k v m)) -> k' = k \/ In k' (map fst m).
Proof.
  intros H. apply in_map_iff in H as ([k0 v0] & E & H). simpl in E. subst k0.
  apply set_In in H as [[-> _] | H]; auto.
  right. apply in_map_iff. now exists (k', v0).
Qed.

Lemma set_keys_NoDup (V : Type) k (v : V) m :
  NoDup (map fst m) -> NoDup (map fst (JsMap.set k v m)).
Proof.
  induction m as [|[k0 v0] m IH]; simpl; intros H.
  - repeat constructor. intros [].
  - inversion H as [|? ? Hn Hm]; subst.
    destruct (str_eqb k0 k) eqn:Ek; simpl.
    + now constructor.
    + constructor; [|now apply IH].
      intros Hin. apply set_key_In in Hin as [-> | Hin]; [|contradiction].
      rewrite str_eqb_refl in Ek. discriminate.
Qed.

Lemma get_In (V : Type) k (v : V) m : JsMap.get k m = Some v -> In (k, v) m.
Proof.
  induction m as [|[k0 v0] m IH]; simpl; [discriminate|].
  destruct (str_eqb k0 k) eqn:Ek.
  - apply str_eqb_eq in Ek. subst. intros E. inversion E. auto.
  - auto.
Qed.

Lemma scanLine_keys_NoDup line rest m :
  NoDup (map fst m) -> NoDup (map fst (scanLine line rest m)).
Proof.
  intros H. unfold scanLine. destruct (annotationMatch line); trivial.
  destruct (nextNonBlank rest); trivial. destruct (variableMatch s0); trivial.
  now apply set_keys_NoDup.
Qed.

(** X2.  No label occurs twice in the index a scan returns. *)
Theorem scan_labels_unique text : NoDup (map fst (scan text)).
Proof.
  unfold scan. generalize (split_lines text). intros lines.
  assert (H : NoDup (map fst (JsMap.empty str))) by constructor.
  revert H. generalize (JsMap.empty str).
  induction lines as [|l rest IH]; simpl; intros m H; trivial.
  apply IH. now apply scanLine_keys_NoDup.
Qed.

Lemma nextNonBlank_nonblank rest d : nextNonBlank rest = Some d -> isBlank d = false.
Proof.
  induction rest as [|l rest IH]; simpl; [discriminate|].
  destruct (isBlank l) eqn:E; trivial. intros H. inversion H. now subst.
Qed.

Lemma nextNonBlank_blanks blanks :
  Forall (fun l => isBlank l = true) blanks -> nextNonBlank blanks = None.
Proof. induction 1 as [|l blanks Hl _ IH]; simpl; trivial. now rewrite Hl. Qed.

Lemma scanLines_In L X lines : forall m,
  In (L, X) (scanLines lines m) ->
  In (L, X) m \/
  exists pre a rest d,
    lines = pre ++ a :: rest /\ annotationMatch a = Some L /\
    nextNonBlank rest = Some d /\ variableMatch d = Some X.
Proof.
  induction lines as [|l rest IH]; simpl; intros m H; auto.
  destruct (IH _ H) as [Hm | (pre & a & rest' & d & -> & Ha & Hd & Hx)].
  - unfold scanLine in Hm.
    destruct (annotationMatch l) as [ann|] eqn:Ea; auto.
    destruct (nextNonBlank rest) as [d|] eqn:Ed; auto.
    destruct (variableMatch d) as [v|] eqn:Ev; auto.
    apply set_In in Hm as [[-> ->] | Hm]; auto.
    right. now exists [], l, rest, d.
  - right. now exists (l :: pre), a, rest', d.
Qed.

(** X3.  Every entry of the index comes from the text: some line is an
    annotation line with the entry's label, and the first non-blank line
    below it yields the entry's identifier. *)
Theorem scan_entries_come_from_lines text L X :
  In (L, X) (scan text) ->
  exists pre a rest d,
    split_lines text = pre ++ a :: rest /\ annotationMatch a = Some L /\
    nextNonBlank rest = Some d /\ isBlank d = false /\ variableMatch d = Some X.
Proof.
  intros H. apply scanLines_In in H as [[] | (pre & a & rest & d & E & Ha & Hd & Hx)].
  exists pre, a, rest, d. repeat split; trivial. now apply nextNonBlank_nonblank with rest.
Qed.

Lemma scan_entries_come_from_lines_witness :
  exists pre a rest d,
    split_lines text_twice = pre ++ a :: rest /\
    annotationMatch a = Some (of_string "id") /\
    nextNonBlank rest = Some d /\ isBlank d = false /\
    variableMatch d = Some (of_string "second").
Proof.
  apply (@scan_entries_come_from_lines text_twice (of_string "id") (of_string "second")).
  vm_compute. left. reflexivity.
Defined.

(** X4.  A label followed by nothing but blank lines up to the end of the
    text, and carried by no line above, is not in the index. *)
Theorem scan_drops_label_at_end_of_text text pre a blanks L :
  split_lines text = pre ++ a :: blanks ->
  Forall (fun l => isBlank l = true) blanks ->
  (forall l, In l pre -> annotationMatch l <> Some L) ->
  JsMap.get L (scan text) = None.
Proof.
  intros Hsplit Hblanks Hpre. unfold scan. rewrite Hsplit.
  apply scanLines_dropped; trivial.
  - left. now apply nextNonBlank_blanks.
  - intros l Hl. apply in_app_or in Hl as [Hl | Hl]; [now apply Hpre|].
    rewrite Forall_forall in Hblanks.
    rewrite blank_not_annotation by now apply Hblanks. discriminate.
Qed.

Lemma scan_drops_label_at_end_of_text_witness :
  JsMap.get (of_string "a")
    (scan (of_string "let x = 1;" ++ [c_lf] ++ of_string "// @a" ++ [c_lf] ++ of_string "  "))
  = None.
Proof.
  apply (@scan_drops_label_at_end_of_text _ [of_string "let x = 1;"]
           (of_string "// @a") [of_string "  "] (of_string "a")).
  - reflexivity.
  - repeat constructor.
  - intros l [<- | []]. vm_compute. discriminate.
Defined.

(** ** The shape of labels and identifiers *)

Lemma variableMatch_word d X :
  variableMatch d = Some X -> X <> [] /\ forallb isWord X = true.
Proof.
  unfold variableMatch. destruct (search variableRegex d) as [c|] eqn:E; [|discriminate].
  apply search_sound in E as (s' & _ & H).
  unfold exec_at in H. rewrite variableRegex_eq, run_Alt in H.
  assert (exists n x w, isWord x = true /\ forallb isWord w = true /\
                        (n = 1 \/ n = 2) /\ c = setcap n (x :: w) nocaps)
    as (n & x & w & Hx & Hw & Hn & ->).
  { apply orElse_Some in H as [H | [_ H]].
    - rewrite run_Seq in H. unfold keywords in H. rewrite !run_Alt in H.
      assert (exists u, run declTail accept u nocaps = Some c) as [u Hu].
      { apply orElse_Some in H as [H | [_ H]];
          [eexists; eapply run_Lit_sound, H|].
        apply orElse_Some in H as [H | [_ H]];
          eexists; eapply run_Lit_sound, H. }
      apply declTail_sound in Hu as (x & w & Hx & Hw & ->).
      exists 1, x, w. auto.
    - apply wordThen_sound in H as (x & w & Hx & Hw & ->).
      exists 2, x, w. auto. }
  intros HX.
  assert (X = x :: w)
    by (destruct Hn as [-> | ->]; cbv in HX; injection HX as <-; reflexivity).
  subst X. split; [discriminate|]. simpl. now rewrite Hx.
Qed.

Lemma annotationRegex_capture s c :
  search annotationRegex s = Some c ->
  exists g, c 1 = Some g /\ forallb isDot g = true.
Proof.
  intros H. apply search_sound in H as (s' & _ & H).
  unfold exec_at, annotationRegex in H. rewrite !run_Seq in H.
  apply run_Chr_sound in H as (x1 & s1 & -> & _ & H).
  apply run_Chr_sound in H as (x2 & s2 & -> & _ & H).
  change (run (Star isSpace) ?k s2 ?c') with (star isSpace k s2 c') in H.
  apply star_sound in H as (w1 & s3 & -> & _ & H).
  apply run_Chr_sound in H as (x3 & s4 & -> & _ & H).
  change (run (Star isSpace) ?k s4 ?c') with (star isSpace k s4 c') in H.
  apply star_sound in H as (w2 & s5 & -> & _ & H).
  change (run (Group 1 (Plus isDot)) accept s5 nocaps = Some c) in H.
  rewrite run_Group in H.
  apply run_Plus_sound in H as (x & w & s6 & -> & Hx & Hw & H).
  unfold accept in H.
  change (x :: w ++ s6) with ((x :: w) ++ s6) in H.
  rewrite firstn_length_diff in H.
  exists (x :: w). split; [injection H as <-; reflexivity|].
  simpl. now rewrite Hx.
Qed.

Lemma annotationMatch_shape a L :
  annotationMatch a = Some L -> trim L = L /\ forallb isDot L = true.
Proof.
  unfold annotationMatch.
  destruct (search annotationRegex a) as [c|] eqn:E; [|discriminate].
  apply annotationRegex_capture in E as (g & -> & Hg).
  intros H. inversion H. split; [apply trim_idempotent | now apply forallb_trim].
Qed.

(** X5.  In every index a scan returns, a label has no whitespace at
    either end and no line terminator inside, and an identifier is a
    non-empty run of letters, digits and underscores. *)
Theorem scan_entries_are_trimmed_labels_and_words text L X :
  In (L, X) (scan text) ->
  trim L = L /\ forallb isDot L = true /\ X <> [] /\ forallb isWord X = true.
Proof.
  intros H. apply scanLines_In in H as [[] | (pre & a & rest & d & _ & Ha & _ & Hx)].
  destruct (annotationMatch_shape _ Ha). destruct (variableMatch_word _ Hx). auto.
Qed.

Lemma scan_entries_are_trimmed_labels_and_words_witness :
  trim (of_string "uid") = of_string "uid" /\
  forallb isWord (of_string "userId") = true.
Proof.
  destruct (@scan_entries_are_trimmed_labels_and_words text_uid
              (of_string "uid") (of_string "userId"))
    as (Ht & _ & _ & Hw).
  - vm_compute. left. reflexivity.
  - split; assumption.
Defined.

(** ** Annotation lines *)

Lemma search_annotationRegex_skip w s :
  forallb notSlash w = true ->
  search annotationRegex (w ++ s) = search annotationRegex s.
Proof.
  induction w as [|x w IH]; simpl app; intros H; trivial.
  simpl in H. apply andb_true_iff in H as [Hx H].
  rewrite search_next; [now apply IH|].
  apply exec_annotationRegex_notslash. simpl.
  now apply negb_true_iff in Hx.
Qed.

Lemma annotation_body_hit ws2 L ws3 c :
  forallb isSpace ws2 = true -> L <> [] -> trim L = L ->
  forallb isDot (L ++ ws3) = true ->
  run (Seq (Star isSpace) (Group 1 (Plus isDot))) accept (ws2 ++ L ++ ws3) c
  = Some (setcap 1 (L ++ ws3) c).
Proof.
  intros H2 N E Hd. rewrite run_Seq.
  change (run (Star isSpace) ?k ?s c) with (star isSpace k s c).
  destruct (trim_stops L) as [H1 _]. rewrite E in H1.
  destruct L as [|x L]; [congruence|].
  apply star_greedy; trivial.
  rewrite run_Group. simpl app in *. simpl in Hd.
  apply andb_true_iff in Hd as [Hx Hd].
  rewrite <- (app_nil_r (L ++ ws3)) at 1.
  apply plus_greedy; trivial; [exact I|].
  unfold accept.
  replace (List.length (x :: L ++ ws3) - List.length (@nil char))
    with (List.length (x :: L ++ ws3)) by (simpl; lia).
  now rewrite firstn_all.
Qed.

(** X6.  A line made of an indentation without [/], [//], optional
    whitespace, [@], optional whitespace, a label that is trimmed and holds
    no line terminator, and trailing blanks, is an annotation line with
    that label. *)
Theorem annotationMatch_of_annotation_line indent ws1 ws2 L ws3 :
  forallb notSlash indent = true ->
  forallb isSpace ws1 = true -> forallb isSpace ws2 = true ->
  L <> [] -> trim L = L ->
  forallb isSpace ws3 = true -> forallb isDot (L ++ ws3) = true ->
  annotationMatch (indent ++ c_slash :: c_slash :: ws1 ++ c_at :: ws2 ++ L ++ ws3)
  = Some L.
Proof.
  intros Hi H1 H2 N E H3 Hd. unfold annotationMatch.
  rewrite search_annotationRegex_skip by assumption.
  erewrite search_here.
  2:{ unfold exec_at, annotationRegex. rewrite run_Seq.
      rewrite run_Chr_hit by reflexivity. rewrite run_Seq.
      rewrite run_Chr_hit by reflexivity. rewrite run_Seq.
      change (run (Star isSpace) ?k ?s nocaps) with (star isSpace k s nocaps).
      apply star_greedy; [assumption | reflexivity |].
      rewrite run_Seq, run_Chr_hit by reflexivity.
      now apply annotation_body_hit. }
  unfold setcap. simpl. now rewrite trim_trailing.
Qed.

Lemma annotationMatch_of_annotation_line_witness :
  annotationMatch (of_string "  x = 1; //  @ user id  ") = Some (of_string "user id").
Proof.
  apply (@annotationMatch_of_annotation_line (of_string "  x = 1; ")
           (of_string "  ") (of_string " ") (of_string "user id") (of_string "  "));
    try reflexivity.
  intro E. vm_compute in E. discriminate E.
Defined.

(** ** The trigger pattern *)

Lemma exec_atRegex_label s c :
  exec_at atRegex s = Some c ->
  exists typed, s = c_at :: typed /\ c 1 = Some typed /\
                forallb isLabelChar typed = true.
Proof.
  unfold exec_at, atRegex. rewrite run_Seq.
  destruct s as [|x s]; simpl run at 1; [discriminate|].
  destruct (isChar c_at x) eqn:Hx; [|discriminate].
  apply N.eqb_eq in Hx. subst x. intros H.
  apply star_sound in H as (w & s' & -> & Hw & H).
  destruct s' as [|y s']; [|discriminate]. unfold accept in H.
  inversion H. exists (w ++ []). repeat split.
  - unfold setcap. simpl. rewrite Nat.sub_0_r. now rewrite firstn_all.
  - now rewrite app_nil_r.
Qed.

Lemma exec_atRegex_hit typed :
  forallb isLabelChar typed = true ->
  exec_at atRegex (c_at :: typed) = Some (setcap 1 typed nocaps).
Proof.
  intros H. unfold exec_at, atRegex.
  rewrite run_Seq, run_Chr_hit by reflexivity. rewrite run_Seq, run_Group.
  change (run (Star isLabelChar) ?k typed nocaps) with (star isLabelChar k typed nocaps).
  rewrite <- (app_nil_r typed) at 1.
  apply star_greedy; trivial; [exact I|]. simpl.
  unfold accept. rewrite Nat.sub_0_r. now rewrite firstn_all.
Qed.

Lemma exec_atRegex_blocked x pre typed :
  exec_at atRegex (x :: pre ++ c_at :: typed) = None.
Proof.
  destruct (exec_at atRegex (x :: pre ++ c_at :: typed)) as [c|] eqn:E; trivial.
  apply exec_atRegex_label in E as (t & Ht & _ & Hl).
  injection Ht as _ Ht. rewrite <- Ht, forallb_app in Hl.
  apply andb_true_iff in Hl as [_ Hl]. simpl in Hl. discriminate.
Qed.

Lemma atMatch_hit pre typed :
  forallb isLabelChar typed = true -> atMatch (pre ++ c_at :: typed) = Some typed.
Proof.
  intros Hl. unfold atMatch.
  assert (E : search atRegex (pre ++ c_at :: typed) = Some (setcap 1 typed nocaps)).
  { induction pre as [|x pre IH]; simpl app.
    - apply search_here. now apply exec_atRegex_hit.
    - rewrite search_next by apply exec_atRegex_blocked. exact IH. }
  rewrite E. reflexivity.
Qed.

(** X7.  The trigger pattern matches a line prefix exactly when the prefix
    ends in an [@] followed by characters that are neither whitespace nor
    [@]; the typed text is what follows that last [@]. *)
Theorem atMatch_iff linePrefix typed :
  atMatch linePrefix = Some typed <->
  forallb isLabelChar typed = true /\ exists pre, linePrefix = pre ++ c_at :: typed.
Proof.
  split.
  - unfold atMatch.
    destruct (search atRegex linePrefix) as [c|] eqn:E; [|discriminate].
    intros Hc. apply search_sound in E as (s' & [pre ->] & He).
    apply exec_atRegex_label in He as (t & -> & Ht & Hl).
    assert (t = typed) by congruence. subst t. split; trivial. now exists pre.
  - intros [Hl [pre ->]]. now apply atMatch_hit.
Qed.

(** ** The resolver on any request *)

Lemma atMatch_column text n typed :
  atMatch (substr0 text n) = Some typed -> List.length typed + 1 <= n.
Proof.
  intros H. apply atMatch_sound in H as [pre E].
  apply (f_equal (@List.length char)) in E. unfold substr0 in E.
  rewrite length_app in E. simpl in E.
  pose proof (firstn_le_length n text). lia.
Qed.

(** X8.  Whenever the trigger pattern matches the line prefix, the [@typed]
    span lies left of the cursor, so the resolver never takes the insert
    branch: for a file document every candidate carries the replacing
    edit. *)
Theorem completion_always_replaces s doc position text typed :
  scheme (uri doc) = s_file ->
  lineAt (host s) doc position = Some text ->
  atMatch (substr0 text (character position)) = Some typed ->
  List.length typed + 1 <= character position /\
  provideCompletionItems s doc position
  = Some (map (candidate typed position)
            (filter (fun e => startsWith (fst e) typed) (indexOf s doc))).
Proof.
  intros Hscheme Hline Hat.
  pose proof (atMatch_column _ _ Hat) as Hcol. split; trivial.
  unfold provideCompletionItems. rewrite Hscheme, str_eqb_refl. simpl negb.
  cbv iota. rewrite Hline, Hat.
  now apply completionLoop_replace.
Qed.

Lemma completion_always_replaces_witness :
  provideCompletionItems ext_foo_bar doc_a {| line := 0; character := 6 |}
  = Some (map (candidate [] {| line := 0; character := 6 |}) index_foo_bar).
Proof.
  destruct (@completion_always_replaces ext_foo_bar doc_a
              {| line := 0; character := 6 |} (of_string "send(@f") []
              eq_refl eq_refl eq_refl) as [_ H].
  exact H.
Defined.

(** X9.  A request on a line of the document never raises, and it returns
    no more candidates than the document's index has entries. *)
Theorem provideCompletionItems_returns s doc position :
  lineAt (host s) doc position <> None ->
  exists items,
    provideCompletionItems s doc position = Some items /\
    List.length items <= List.length (indexOf s doc).
Proof.
  intros Hline. unfold provideCompletionItems.
  destruct (negb (str_eqb (scheme (uri doc)) s_file)).
  - exists []. split; [reflexivity | simpl; lia].
  - destruct (lineAt (host s) doc position) as [text|]; [|congruence].
    destruct (atMatch (substr0 text (character position))) as [typed|] eqn:Hat.
    + rewrite completionLoop_replace by exact (atMatch_column _ _ Hat).
      eexists. split; [reflexivity|].
      rewrite length_map. apply filter_length_le.
    + exists []. split; [reflexivity | simpl; lia].
Qed.

Lemma provideCompletionItems_returns_witness :
  exists items,
    provideCompletionItems ext_foo_bar doc_a {| line := 0; character := 99 |}
    = Some items /\ List.length items <= 2.
Proof.
  apply (@provideCompletionItems_returns ext_foo_bar doc_a
           {| line := 0; character := 99 |}).
  vm_compute. discriminate.
Defined.

(** ** One scan of one document *)

Lemma parseDocument_eligible doc s :
  eligible (host s) doc = true ->
  parseDocument doc s
  = {| host := host s;
       documentAnnotations :=
         JsMap.set (toString (uri doc)) (scan (getText (host s) doc))
           (documentAnnotations s) |}.
Proof.
  unfold eligible, parseDocument. intros H.
  apply andb_true_iff in H as [H Hex]. apply andb_true_iff in H as [Hs Hw].
  rewrite Hs. simpl negb. cbv iota.
  destruct (workspaceFolders (host s)); [|discriminate].
  rewrite Hw. simpl negb. cbv iota.
  apply negb_true_iff in Hex. now rewrite Hex.
Qed.

Lemma parseDocument_ineligible doc s :
  eligible (host s) doc = false -> parseDocument doc s = s.
Proof.
  unfold eligible, parseDocument. intros H.
  destruct (str_eqb (scheme (uri doc)) s_file); trivial. simpl in *.
  destruct (workspaceFolders (host s)); trivial.
  destruct (isInWorkspace l doc); trivial. simpl in *.
  destruct (isExcluded doc); [trivial | discriminate].
Qed.

Lemma parseDocument_host doc s : host (parseDocument doc s) = host s.
Proof.
  destruct (eligible (host s) doc) eqn:E.
  - now rewrite parseDocument_eligible.
  - now rewrite parseDocument_ineligible.
Qed.

Lemma set_set (V : Type) k (v : V) m :
  JsMap.set k v (JsMap.set k v m) = JsMap.set k v m.
Proof.
  induction m as [|[k0 v0] m IH]; simpl.
  - now rewrite str_eqb_refl.
  - destruct (str_eqb k0 k) eqn:E; simpl; rewrite E; trivial. now rewrite IH.
Qed.

(** X10.  A scan of a document leaves the host and the entries of all
    other documents as they are, and scanning the same document again right
    away changes nothing more. *)
Theorem parseDocument_touches_one_entry doc s :
  host (parseDocument doc s) = host s /\
  (forall k, k <> toString (uri doc) ->
     JsMap.get k (documentAnnotations (parseDocument doc s))
     = JsMap.get k (documentAnnotations s)) /\
  parseDocument doc (parseDocument doc s) = parseDocument doc s.
Proof.
  destruct (eligible (host s) doc) eqn:E.
  - rewrite (parseDocument_eligible _ _ E). repeat split.
    + intros k N. simpl. apply get_set_other. congruence.
    + rewrite parseDocument_eligible by exact E. simpl. now rewrite set_set.
  - rewrite (parseDocument_ineligible _ _ E). repeat split.
    now apply parseDocument_ineligible.
Qed.

(** X11.  A document that has a whole path segment named [node_modules]
    or [.vscode] is never scanned. *)
Theorem parseDocument_skips_excluded_directories doc s :
  hasSegment (fsPath (uri doc)) s_node_modules = true \/
  hasSegment (fsPath (uri doc)) s_vscode = true ->
  parseDocument doc s = s.
Proof.
  intros H. apply parseDocument_ineligible. unfold eligible.
  rewrite (segment_is_excluded _ H). simpl. apply andb_false_r.
Qed.

Lemma parseDocument_skips_excluded_directories_witness :
  parseDocument (docAt "/p/node_modules/lib/index.js") ext_typing = ext_typing.
Proof.
  apply parseDocument_skips_excluded_directories. left. reflexivity.
Defined.

(** ** Activation *)

Lemma getText_same_key h d d' :
  toString (uri d') = toString (uri d) -> getText h d' = getText h d.
Proof. unfold getText. now intros ->. Qed.

Lemma scans_host editors : forall s,
  host (fold_left (fun s e => parseDocument (document e) s) editors s) = host s.
Proof.
  induction editors as [|e editors IH]; simpl; intros s; trivial.
  now rewrite IH, parseDocument_host.
Qed.

Lemma parseDocument_keeps_scanned d d' s :
  JsMap.get (toString (uri d)) (documentAnnotations s)
  = Some (scan (getText (host s) d)) ->
  JsMap.get (toString (uri d)) (documentAnnotations (parseDocument d' s))
  = Some (scan (getText (host s) d)).
Proof.
  intros H. destruct (eligible (host s) d') eqn:E.
  - rewrite parseDocument_eligible by exact E. simpl.
    destruct (str_eq_dec (toString (uri d')) (toString (uri d))) as [K | K].
    + rewrite (getText_same_key _ _ _ K), K. apply get_set_same.
    + now rewrite get_set_other.
  - now rewrite parseDocument_ineligible.
Qed.

Lemma scans_keep_scanned d editors : forall s,
  JsMap.get (toString (uri d)) (documentAnnotations s)
  = Some (scan (getText (host s) d)) ->
  JsMap.get (toString (uri d))
    (documentAnnotations (fold_left (fun s e => parseDocument (document e) s) editors s))
  = Some (scan (getText (host s) d)).
Proof.
  induction editors as [|e editors IH]; simpl; intros s H; trivial.
  rewrite <- (parseDocument_host (document e) s). apply IH.
  rewrite parseDocument_host. now apply parseDocument_keeps_scanned.
Qed.

Lemma scans_index e editors : forall s,
  In e editors -> eligible (host s) (document e) = true ->
  JsMap.get (toString (uri (document e)))
    (documentAnnotations (fold_left (fun s e => parseDocument (document e) s) editors s))
  = Some (scan (getText (host s) (document e))).
Proof.
  induction editors as [|e0 editors IH]; simpl; intros s Hin He; [contradiction|].
  destruct Hin as [-> | Hin].
  - rewrite <- (parseDocument_host (document e) s). apply scans_keep_scanned.
    rewrite parseDocument_host, parseDocument_eligible by exact He. simpl.
    apply get_set_same.
  - rewrite <- (parseDocument_host (document e0) s). apply IH; trivial.
    now rewrite parseDocument_host.
Qed.

(** X12.  Right after activation the index of every visible document that
    passes the three tests is the scan of its text. *)
Theorem activation_indexes_visible_documents h t0 e :
  In e (visibleTextEditors h) -> eligible h (document e) = true ->
  indexOf (state (snd (activate h t0))) (document e)
  = scan (getText h (document e)).
Proof.
  intros Hin He. unfold indexOf, activate. simpl.
  now rewrite (scans_index e (visibleTextEditors h)
                 {| host := h; documentAnnotations := JsMap.empty AnnotationIndex |}
                 Hin He).
Qed.

Lemma activation_indexes_visible_documents_witness :
  indexOf (state (snd (activate host_theme 3))) doc_a = index_uid.
Proof.
  assert (Hin : In {| document := doc_a |} (visibleTextEditors host_theme))
    by (right; left; reflexivity).
  exact (@activation_indexes_visible_documents host_theme 3 {| document := doc_a |}
           Hin eq_refl).
Defined.

(** ** Every state the extension reaches *)

Lemma trigger_one d rt :
  oneScanPending rt ->
  parseDocumentWithDebounce2 d rt
  = (Some (nextId (snd rt)),
     {| now := now (snd rt); nextId := S (nextId (snd rt));
        pending := [{| tid := nextId (snd rt); due := now (snd rt) + 300;
                       callback := parseDocument d |}];
        state := state (snd rt) |}).
Proof.
  destruct rt as [timer w]. simpl.
  intros [Hp | (tm & d0 & Hp & Hid & _)]; simpl in *;
    unfold parseDocumentWithDebounce2, debounce, clearTimeout, setTimeout; simpl.
  - destruct timer; simpl; rewrite Hp; reflexivity.
  - subst timer. simpl. rewrite Hp. simpl. rewrite Nat.eqb_refl. reflexivity.
Qed.

Lemma trigger_oneScanPending d rt :
  oneScanPending rt -> oneScanPending (parseDocumentWithDebounce2 d rt).
Proof.
  intros H. rewrite (trigger_one d H). right.
  eexists. exists d. simpl. repeat split.
Qed.

Lemma triggers_oneScanPending editors : forall rt,
  oneScanPending rt ->
  oneScanPending
    (fold_left (fun r e => parseDocumentWithDebounce2 (document e) r) editors rt).
Proof.
  induction editors as [|e editors IH]; simpl; intros rt H; trivial.
  apply IH. now apply trigger_oneScanPending.
Qed.

Lemma elapse_one t (rt : Runtime) :
  oneScanPending rt ->
  oneScanPending (fst rt, elapse t (snd rt)) /\
  (state (elapse t (snd rt)) = state (snd rt) \/
   exists d, state (elapse t (snd rt)) = parseDocument d (state (snd rt))).
Proof.
  intros [Hp | (tm & d & Hp & Hid & Hcb)]; unfold elapse; rewrite Hp; simpl.
  - split; [now left | now left].
  - destruct (isDue t tm); simpl.
    + split; [now left|]. right. exists d. now rewrite Hcb.
    + split; [|now left]. right. now exists tm, d.
Qed.

Lemma step_oneScanPending ev rt : oneScanPending rt -> oneScanPending (step ev rt).
Proof.
  intros H. destruct ev as [editors | d b | folders | t]; simpl.
  - unfold onDidChangeVisibleTextEditors.
    destruct (0 <? List.length editors); [apply triggers_oneScanPending|]; exact H.
  - unfold onDidChangeTextDocument.
    match goal with |- context [if ?c then _ else _] => destruct c end;
      [apply trigger_oneScanPending|]; exact H.
  - exact H.
  - now apply elapse_one.
Qed.

Lemma steps_oneScanPending evs : forall rt,
  oneScanPending rt -> oneScanPending (steps evs rt).
Proof.
  unfold steps. induction evs as [|ev evs IH]; simpl; intros rt H; trivial.
  apply IH. now apply step_oneScanPending.
Qed.

(** X13.  Whatever the host does after activation, at most one timer is
    pending; it is the one the wrapper set last and it scans a document. *)
Theorem at_most_one_scan_pending h t0 evs :
  let rt := steps evs (activate h t0) in
  List.length (pending (snd rt)) <= 1 /\ oneScanPending rt.
Proof.
  intros rt. assert (H : oneScanPending rt)
    by (apply steps_oneScanPending; now left).
  split; trivial. destruct H as [-> | (tm & d & -> & _)]; simpl; lia.
Qed.

Section ScannedDocuments.

(** The documents the host hands over. *)
Variable D : TextDocument -> Prop.

Lemma oneScanPendingOf_one rt : oneScanPendingOf D rt -> oneScanPending rt.
Proof.
  intros [H | (tm & d & Hp & Hid & Hcb & _)]; [now left|]. right. now exists tm, d.
Qed.

Lemma parseDocument_storeOfScanned d s :
  D d -> storeOfScanned D s -> storeOfScanned D (parseDocument d s).
Proof.
  intros Hd H. unfold parseDocument.
  destruct (str_eqb (scheme (uri d)) s_file) eqn:Es; simpl; trivial.
  destruct (workspaceFolders (host s)); trivial.
  destruct (negb (isInWorkspace l d)); trivial.
  destruct (isExcluded d) eqn:Ex; trivial.
  intros k m Hk. simpl in Hk.
  destruct (str_eq_dec (toString (uri d)) k) as [<- | N].
  - exists d. apply str_eqb_eq in Es. auto.
  - rewrite get_set_other in Hk by exact N. exact (H k m Hk).
Qed.

Lemma scans_storeOfScanned editors : forall s,
  (forall e, In e editors -> D (document e)) -> storeOfScanned D s ->
  storeOfScanned D (fold_left (fun s e => parseDocument (document e) s) editors s).
Proof.
  induction editors as [|e editors IH]; simpl; intros s HD H; trivial.
  apply IH; [intros; apply HD; auto|]. apply parseDocument_storeOfScanned; auto.
Qed.

Lemma trigger_scannedOnly d rt :
  D d -> scannedOnly D rt -> scannedOnly D (parseDocumentWithDebounce2 d rt).
Proof.
  intros Hd [Hs Hp].
  rewrite (trigger_one d (oneScanPendingOf_one Hp)). split; [exact Hs|].
  right. eexists. exists d. simpl. repeat split. exact Hd.
Qed.

Lemma triggers_scannedOnly editors : forall rt,
  (forall e, In e editors -> D (document e)) -> scannedOnly D rt ->
  scannedOnly D
    (fold_left (fun r e => parseDocumentWithDebounce2 (document e) r) editors rt).
Proof.
  induction editors as [|e editors IH]; simpl; intros rt HD H; trivial.
  apply IH; [intros; apply HD; auto|]. apply trigger_scannedOnly; auto.
Qed.

Lemma elapse_scannedOnly t (rt : Runtime) :
  scannedOnly D rt -> scannedOnly D (fst rt, elapse t (snd rt)).
Proof.
  intros [Hs [Hp | (tm & d & Hp & Hid & Hcb & Hd)]]; unfold scannedOnly, elapse;
    simpl; rewrite Hp; simpl.
  - split; [exact Hs | now left].
  - destruct (isDue t tm); simpl.
    + split; [|now left]. rewrite Hcb. now apply parseDocument_storeOfScanned.
    + split; [exact Hs|]. right. now exists tm, d.
Qed.

Lemma step_scannedOnly ev rt :
  (forall d, In d (eventDocuments ev) -> D d) ->
  scannedOnly D rt -> scannedOnly D (step ev rt).
Proof.
  intros HD H. destruct ev as [editors | d b | folders | t].
  - simpl. unfold onDidChangeVisibleTextEditors.
    destruct (0 <? List.length editors); [|exact H].
    apply triggers_scannedOnly; [|exact H].
    intros e He. apply HD. simpl. now apply in_map.
  - simpl. unfold onDidChangeTextDocument.
    match goal with |- context [if ?c then _ else _] => destruct c end; [|exact H].
    apply trigger_scannedOnly; [|exact H]. apply HD. simpl. auto.
  - exact H.
  - now apply elapse_scannedOnly.
Qed.

Lemma steps_scannedOnly evs : forall rt,
  (forall d, In d (flat_map eventDocuments evs) -> D d) ->
  scannedOnly D rt -> scannedOnly D (steps evs rt).
Proof.
  unfold steps. induction evs as [|ev evs IH]; simpl; intros rt HD H; trivial.
  apply IH.
  - intros d Hd. apply HD. apply in_or_app. auto.
  - apply step_scannedOnly; trivial. intros d Hd. apply HD. apply in_or_app. auto.
Qed.

Lemma activate_scannedOnly h t0 :
  (forall e, In e (visibleTextEditors h) -> D (document e)) ->
  scannedOnly D (activate h t0).
Proof.
  intros HD. split; [|now left]. simpl.
  apply scans_storeOfScanned; trivial. intros k m Hk. discriminate.
Qed.

End ScannedDocuments.

(** X14.  Whatever the host does after activation, every entry of the
    store is kept under the URI string of a document the host has handed
    over, at activation or in an event, that has the file scheme and a path
    containing neither [node_modules] nor [.vscode]. *)
Theorem store_holds_only_eligible_files h t0 evs k m :
  JsMap.get k (documentAnnotations (state (snd (steps evs (activate h t0))))) = Some m ->
  exists d,
    In d (handedOver h evs) /\ toString (uri d) = k /\
    scheme (uri d) = s_file /\ isExcluded d = false.
Proof.
  assert (H : scannedOnly (fun d => In d (handedOver h evs))
                (steps evs (activate h t0))).
  { apply steps_scannedOnly.
    - intros d Hd. unfold handedOver. apply in_or_app. auto.
    - apply activate_scannedOnly. intros e He. unfold handedOver.
      apply in_or_app. left. now apply in_map. }
  destruct H as [H _]. exact (H k m).
Qed.

Lemma store_holds_only_eligible_files_witness :
  exists d,
    In d (handedOver host_two (events_two ++ [Elapsed 5000])) /\
    toString (uri d) = toString (uri doc_b) /\ scheme (uri d) = s_file /\
    isExcluded d = false.
Proof.
  apply (@store_holds_only_eligible_files host_two 0
           (events_two ++ [Elapsed 5000]) (toString (uri doc_b)) index_n).
  reflexivity.
Defined.

(** X15.  In any state the extension reaches, a text change in a visible
    document that passes the three tests, followed by 300 time-units
    without another event, leaves that document's index equal to the scan
    of the new text, and no timer pending. *)
Theorem index_follows_text_change h t0 evs doc b :
  let rt := steps evs (activate h t0) in
  isVisible (host (state (snd rt))) doc = true ->
  eligible (host (state (snd rt))) doc = true ->
  let rt' := steps [TextChanged doc b; Elapsed (now (snd rt) + 300)] rt in
  indexOf (state (snd rt')) doc = scan (join (bufEol b) (bufLines b)) /\
  pending (snd rt') = [].
Proof.
  intros rt Hvis Hel rt'.
  assert (H : oneScanPending rt) by (apply steps_oneScanPending; now left).
  set (rt0 := updHost (setBuffer (toString (uri doc)) b) rt).
  assert (H0 : oneScanPending rt0) by exact H.
  assert (E1 : step (TextChanged doc b) rt = parseDocumentWithDebounce2 doc rt0).
  { simpl. unfold onDidChangeTextDocument. fold rt0.
    change (isVisible (host (state (snd rt0))) doc)
      with (isVisible (host (state (snd rt))) doc).
    now rewrite Hvis. }
  unfold rt'.
  change (steps [TextChanged doc b; Elapsed (now (snd rt) + 300)] rt)
    with (step (Elapsed (now (snd rt) + 300)) (step (TextChanged doc b) rt)).
  rewrite E1, (trigger_one doc H0).
  unfold step. simpl fst. simpl snd.
  erewrite elapse_due; [|reflexivity | simpl; lia]. simpl.
  split; trivial. unfold indexOf.
  rewrite parseDocument_eligible by exact Hel. simpl.
  rewrite get_set_same. unfold getText. simpl. now rewrite str_eqb_refl.
Qed.

Lemma index_follows_text_change_witness :
  indexOf (state (snd (steps (events_two ++
                                [TextChanged doc_a buffer_n; Elapsed (100 + 300)])
                         (activate host_two 0)))) doc_a
  = index_n.
Proof.
  destruct (@index_follows_text_change host_two 0 events_two doc_a buffer_n
              eq_refl eq_refl) as [H _].
  exact H.
Defined.

(** ** Runs of calls of one wrapper *)

Section DebounceRuns.

Variables (S A : Type) (action : A -> S -> S) (delay : nat).

(** A call a full delay or more after the one before finds that one
    done. *)
Lemma debounce_after t a s0 d t' b :
  armed action delay t a s0 d -> t + delay <= t' ->
  armed action delay t' b (action a s0)
    (debounce action delay b (fst d, elapse t' (snd d))).
Proof.
  intros (id & Hid & Hnow & Hst & Hp) Ht.
  rewrite (elapse_due _ Hp) by (simpl; lia).
  exists (nextId (snd d)). rewrite Hid. unfold debounce. simpl.
  repeat split; trivial.
  - lia.
  - now rewrite Hst.
  - replace (Nat.max (now (snd d)) t') with t' by lia. reflexivity.
Qed.

Lemma callsAt_armed calls : forall t a s d,
  armed action delay t a s d -> inOrder t calls ->
  armed action delay
    (fst (fst (settled action delay t a s calls)))
    (snd (fst (settled action delay t a s calls)))
    (snd (settled action delay t a s calls))
    (callsAt (debounce action delay) calls d).
Proof.
  induction calls as [|[t' b] calls IH]; simpl; intros t a s d H Ho; trivial.
  destruct Ho as [Hle Ho]. apply IH; trivial.
  destruct (t + delay <=? t') eqn:E.
  - apply Nat.leb_le in E. now apply debounce_after with (t := t).
  - apply Nat.leb_gt in E. apply debounce_restart with (t := t) (a := a); trivial. lia.
Qed.

(** X16.  For a delay from 1 to 2^31 - 1, calls of one wrapper at times
    in order come to this: a call runs its action, [delay] after it was made,
    exactly when no other call came within that delay; the actions run in
    the order of their calls, and once the last one has run nothing is
    pending. *)
Theorem debounce_run (w0 : Loop S) t a calls :
  nodeDelay delay ->
  pending w0 = [] -> now w0 <= t -> inOrder t calls ->
  let d := callsAt (debounce action delay) ((t, a) :: calls) (None, w0) in
  let r := settled action delay t a (state w0) calls in
  armed action delay (fst (fst r)) (snd (fst r)) (snd r) d /\
  forall T, fst (fst r) + delay <= T ->
    state (elapse T (snd d)) = action (snd (fst r)) (snd r) /\
    pending (elapse T (snd d)) = [].
Proof.
  intros _ Hp Hnow Ho d r.
  assert (H : armed action delay (fst (fst r)) (snd (fst r)) (snd r) d).
  { unfold d, r. simpl callsAt. apply callsAt_armed; trivial.
    now apply debounce_first. }
  split; trivial. intros T HT. now apply (armed_fires T H).
Qed.

Lemma callsAt_spaced calls : forall t a s d,
  armed action delay t a s d -> spaced delay t calls ->
  exists tl al sl,
    armed action delay tl al sl (callsAt (debounce action delay) calls d) /\
    action al sl = fold_left (fun s c => action (snd c) s) calls (action a s).
Proof.
  induction calls as [|[t' b] calls IH]; simpl; intros t a s d H Hs.
  - now exists t, a, s.
  - destruct Hs as [Hle Hs].
    apply (IH t' b (action a s)); trivial. now apply debounce_after with (t := t).
Qed.

(** X17.  For a delay from 1 to 2^31 - 1, when every call comes a full
    delay or more after the one before, no call is dropped: in the end every
    action has run once, in the order of the calls. *)
Theorem debounce_spaced_calls_all_run (w0 : Loop S) t a calls :
  nodeDelay delay ->
  pending w0 = [] -> now w0 <= t -> spaced delay t calls ->
  let d := callsAt (debounce action delay) ((t, a) :: calls) (None, w0) in
  exists tl, forall T, tl + delay <= T ->
    state (elapse T (snd d))
    = fold_left (fun s c => action (snd c) s) ((t, a) :: calls) (state w0) /\
    pending (elapse T (snd d)) = [].
Proof.
  intros _ Hp Hnow Hs d.
  destruct (callsAt_spaced calls (debounce_first action delay a w0 Hp Hnow) Hs)
    as (tl & al & sl & H & E).
  exists tl. intros T HT. simpl fold_left. rewrite <- E.
  now apply (armed_fires T H).
Qed.

Lemma last_cons (B : Type) (l : list B) : forall x d, last (x :: l) d = last l x.
Proof.
  induction l as [|y l IH]; intros x d; trivial.
  change (last (x :: y :: l) d) with (last (y :: l) d).
  now rewrite (IH y d), (IH y x).
Qed.

Lemma callsAt_burst calls : forall t a s d,
  armed action delay t a s d -> inBurst delay t calls ->
  armed action delay (fst (last calls (t, a))) (snd (last calls (t, a))) s
    (callsAt (debounce action delay) calls d).
Proof.
  induction calls as [|[t' b] calls IH]; intros t a s d H Hb; trivial.
  destruct Hb as [Hle Hb].
  rewrite last_cons. simpl callsAt. apply IH; trivial.
  now apply debounce_restart with (t := t) (a := a).
Qed.

(** X18.  For a delay from 1 to 2^31 - 1 and however many calls there
    are, when each comes before the delay of the one before has run out
    only the last one's action runs, once, [delay] after the last call. *)
Theorem debounce_burst_runs_last_only (w0 : Loop S) t a calls :
  nodeDelay delay ->
  pending w0 = [] -> now w0 <= t -> inBurst delay t calls ->
  let d := callsAt (debounce action delay) ((t, a) :: calls) (None, w0) in
  let tl := fst (last calls (t, a)) in
  let al := snd (last calls (t, a)) in
  (forall T, T < tl + delay -> state (elapse T (snd d)) = state w0) /\
  (forall T, tl + delay <= T ->
     state (elapse T (snd d)) = action al (state w0) /\
     pending (elapse T (snd d)) = []).
Proof.
  intros _ Hp Hnow Hb d tl al.
  assert (H : armed action delay tl al (state w0) d).
  { unfold d, tl, al. simpl callsAt. apply callsAt_burst; trivial.
    now apply debounce_first. }
  split; intros T HT; now apply (armed_fires T H).
Qed.

End DebounceRuns.

Lemma debounce_run_witness :
  let d := callsAt (debounce logArg 300)
             [(0, 1); (100, 2); (500, 3); (600, 4); (2000, 5)] (None, loop0) in
  state (elapse 5000 (snd d)) = [2; 4; 5].
Proof.
  assert (H0 : now loop0 <= 0) by (simpl; lia).
  assert (Ho : inOrder 0 [(100, 2); (500, 3); (600, 4); (2000, 5)])
    by (simpl; lia).
  assert (Hd : nodeDelay 300) by (unfold nodeDelay; lia).
  destruct (@debounce_run (list nat) nat logArg 300 loop0 0 1
              [(100, 2); (500, 3); (600, 4); (2000, 5)] Hd eq_refl H0 Ho) as [_ H].
  intros d. apply H. simpl. lia.
Defined.

Lemma debounce_spaced_calls_all_run_witness :
  exists tl, forall T, tl + 300 <= T ->
    state (elapse T (snd (callsAt (debounce logArg 300)
                            [(0, 1); (300, 2); (900, 3)] (None, loop0))))
    = [1; 2; 3] /\
    pending (elapse T (snd (callsAt (debounce logArg 300)
                              [(0, 1); (300, 2); (900, 3)] (None, loop0))))
    = [].
Proof.
  assert (H0 : now loop0 <= 0) by (simpl; lia).
  assert (Hs : spaced 300 0 [(300, 2); (900, 3)]) by (simpl; lia).
  assert (Hd : nodeDelay 300) by (unfold nodeDelay; lia).
  exact (@debounce_spaced_calls_all_run (list nat) nat logArg 300 loop0 0 1
           [(300, 2); (900, 3)] Hd eq_refl H0 Hs).
Defined.

Lemma debounce_burst_runs_last_only_witness :
  let d := callsAt (debounce logArg 300)
             [(0, 1); (299, 2); (598, 3); (897, 4)] (None, loop0) in
  state (elapse 1196 (snd d)) = [] /\ state (elapse 1197 (snd d)) = [4].
Proof.
  assert (H0 : now loop0 <= 0) by (simpl; lia).
  assert (Hb : inBurst 300 0 [(299, 2); (598, 3); (897, 4)]) by (simpl; lia).
  assert (Hd : nodeDelay 300) by (unfold nodeDelay; lia).
  destruct (@debounce_burst_runs_last_only (list nat) nat logArg 300 loop0 0 1
              [(299, 2); (598, 3); (897, 4)] Hd eq_refl H0 Hb) as [Hbefore Hafter].
  intros d. split.
  - apply Hbefore. simpl. lia.
  - apply Hafter. simpl. lia.
Defined.

(** ** From the annotation to the suggestion *)

Lemma eligible_file h doc : eligible h doc = true -> scheme (uri doc) = s_file.
Proof.
  unfold eligible. intros H. apply andb_true_iff in H as [H _].
  apply andb_true_iff in H as [H _]. now apply str_eqb_eq.
Qed.

(** X19.  Take a document that passes the three tests and has been
    scanned, and in it an annotation line labelled [L], below it only
    whitespace lines and then a line that declares [X] ([const], [let] or
    [var] [X =]) or has the property [X:], [X] a non-empty run of letters,
    digits and underscores, with no later annotation line labelled [L].
    Wherever the text before the cursor ends in [@typed], [typed] a prefix
    of [L] that holds no whitespace and no [@], the candidates contain the
    one that puts [X] over [@typed]. *)
Theorem annotated_identifier_is_offered
  s doc pre a blanks d post L X position text before typed :
  eligible (host s) doc = true ->
  split_lines (getText (host s) doc) = pre ++ a :: blanks ++ d :: post ->
  annotationMatch a = Some L ->
  Forall (fun l => forallb isSpace l = true) blanks ->
  isIdentifier X ->
  isDeclarationOf X d \/ isPropertyOf X d ->
  (forall l, In l (d :: post) -> annotationMatch l <> Some L) ->
  lineAt (host s) doc position = Some text ->
  substr0 text (character position) = before ++ c_at :: typed ->
  forallb isLabelChar typed = true ->
  startsWith L typed = true ->
  exists items,
    provideCompletionItems (parseDocument doc s) doc position = Some items /\
    In (candidate typed position (L, X)) items.
Proof.
  intros Hel Hsplit Ha Hspaces HX Hd Hlater Hline Hcur Htyped Hpre.
  pose proof (whitespace_lines_blank Hspaces) as Hblanks.
  assert (Hat : atMatch (substr0 text (character position)) = Some typed)
    by (rewrite Hcur; now apply atMatch_hit).
  assert (Hget : JsMap.get L (scan (getText (host s) doc)) = Some X).
  { destruct (identifier_line_match HX Hd) as [Hm Hnb].
    unfold scan. rewrite Hsplit.
    apply scanLines_last with (d := d); trivial.
    - now apply nextNonBlank_skip.
    - intros l Hl. apply in_app_or in Hl as [Hl | Hl]; [|now apply Hlater].
      rewrite Forall_forall in Hblanks.
      rewrite blank_not_annotation by now apply Hblanks. discriminate. }
  rewrite parseDocument_eligible by exact Hel.
  unfold provideCompletionItems. simpl host. simpl documentAnnotations.
  rewrite (eligible_file _ _ Hel), str_eqb_refl. simpl negb. cbv iota.
  rewrite Hline, Hat, get_set_same.
  rewrite completionLoop_replace by exact (atMatch_column _ _ Hat).
  eexists. split; [reflexivity|].
  apply in_map. apply filter_In. split; [now apply get_In | exact Hpre].
Qed.

Lemma annotated_identifier_is_offered_witness :
  exists items,
    provideCompletionItems (parseDocument doc_a ext_typing) doc_a
      {| line := 2; character := 2 |} = Some items /\
    In (candidate (of_string "u") {| line := 2; character := 2 |}
          (of_string "uid", of_string "userId")) items.
Proof.
  apply (@annotated_identifier_is_offered ext_typing doc_a []
           (of_string "// @uid") [] (of_string "const userId = 5;")
           [of_string "@u"] (of_string "uid") (of_string "userId")
           {| line := 2; character := 2 |} (of_string "@u") [] (of_string "u")).
  - reflexivity.
  - reflexivity.
  - reflexivity.
  - constructor.
  - split; [intro E; vm_compute in E; discriminate E | reflexivity].
  - left. exists [], kw_const, (of_string " "), (of_string " "), (of_string " 5;").
    repeat split; try reflexivity.
    + left. reflexivity.
    + intro E; vm_compute in E; discriminate E.
  - intros l [<- | [<- | []]]; vm_compute; discriminate.
  - reflexivity.
  - reflexivity.
  - reflexivity.
  - reflexivity.
Defined.
